(** * rad-detiler: the two-level detiling transform of [main.c]

    A shallow embedding of [decode_utile], [decode_mtile] and [main], then
    the vocabulary of the statements, then the properties of the tables and
    of the transform.

    Conventions of the embedding.
    - A C [int] is a [Z].  Inside [decode_utile], [decode_mtile] and the
      frame loop every integer is built from loop counters bounded by the
      fixed geometry (the largest is a word offset below 1280 * 768), so no
      signed or unsigned arithmetic can wrap and no wrap-around is written.
      The one integer that comes from outside is [size] of [main], the
      [long] that [ftell] returns stored in an [int]: that conversion and
      the conversion of [size] to [unsigned long] are written out ([to_int],
      [to_ulong]).  [%] is C's truncating remainder, [Z.rem].
    - A [uint32_t] buffer is a [list word]; a pointer into it is the buffer
      together with a word offset.  An access outside the buffer is undefined
      behaviour in C and yields the fault [OutOfBounds].
    - A failed [assert] yields the fault [AssertFailed].
    - A counted [for] loop is [for_loop]; the two search loops, which leave
      by [goto] or [break], are written as recursions on the number of
      iterations still to run.
    - The calls of the C library in [main] ([fopen], [ftell], [malloc],
      [fread], [fwrite]) answer as a [world] says; every statement about
      [main] names the answers it needs as hypotheses. *)

From stdpp Require Import base list numbers.
From Stdlib Require Import ZArith Lia.
From Stdlib.Strings Require Byte.

Open Scope Z_scope.

(** ** Faults and the error monad *)

Inductive fault : Type :=
  | AssertFailed
  | OutOfBounds.

Inductive result (A : Type) : Type :=
  | Ok (a : A)
  | Err (e : fault).

Arguments Ok {A} a.
Arguments Err {A} e.

Definition bind {A B : Type} (c : result A) (k : A -> result B) : result B :=
  match c with
  | Ok a => k a
  | Err e => Err e
  end.

Notation "'do' x <- c ; k" := (bind c (fun x => k))
  (at level 10, x pattern, c at level 100, k at level 200).

(** [assert(b)] *)
Definition assert (b : bool) : result unit :=
  if b then Ok tt else Err AssertFailed.

(** ** Counted loops

    [for_from fuel i body s] runs [body i], [body (i+1)], ... for [fuel]
    iterations; [for_loop n body s] is [for (i = 0; i < n; ++i) body]. *)

Fixpoint for_from {St : Type} (fuel : nat) (i : Z)
    (body : Z -> St -> result St) (s : St) : result St :=
  match fuel with
  | O => Ok s
  | S fuel' => do s' <- body i s; for_from fuel' (i + 1) body s'
  end.

Definition for_loop {St : Type} (n : Z) (body : Z -> St -> result St) (s : St)
    : result St :=
  for_from (Z.to_nat n) 0 body s.

(** ** Word buffers *)

(** A 32-bit word; the program only moves words and never computes on
    them. *)
Abbreviation word := Z (only parsing).

Definition len (m : list word) : Z := Z.of_nat (length m).

(** The word at offset [p], when [p] lies inside the buffer. *)
Definition get (m : list word) (p : Z) : option word :=
  if 0 <=? p then m !! Z.to_nat p else None.

(** [m[p]] as an rvalue *)
Definition load (m : list word) (p : Z) : result word :=
  match get m p with
  | Some v => Ok v
  | None => Err OutOfBounds
  end.

(** [m[p] = v] *)
Definition store (m : list word) (p : Z) (v : word) : result (list word) :=
  if (0 <=? p) && (p <? len m) then Ok (<[Z.to_nat p := v]> m)
  else Err OutOfBounds.

(** ** Geometry *)

Definition WIDTH : Z := 1280.
Definition HEIGHT : Z := 768.
Definition NUM_UTILES_PER_MTILE : Z := 4 * 8.
Definition NUM_WORDS_PER_UTILE : Z := 8 * 8.

(** ** The constant tables *)

Definition utile_decoder : list (list Z) :=
  [ [0; 1; 2; 3; 8; 9; 10; 11];
    [4; 5; 6; 7; 12; 13; 14; 15];
    [16; 17; 18; 19; 24; 25; 26; 27];
    [20; 21; 22; 23; 28; 29; 30; 31];
    [32; 33; 34; 35; 40; 41; 42; 43];
    [36; 37; 38; 39; 44; 45; 46; 47];
    [48; 49; 50; 51; 56; 57; 58; 59];
    [52; 53; 54; 55; 60; 61; 62; 63] ].

Definition mtile_decoder_0x : list (list Z) :=
  [ [0; 1; 2; 3];
    [4; 5; 6; 7];
    [8; 9; 10; 11];
    [12; 13; 14; 15];
    [17; 16; 19; 18];
    [21; 20; 23; 22];
    [25; 24; 27; 26];
    [29; 28; 31; 30] ].

Definition mtile_decoder_0 : list (list Z) :=
  [ [0; 4; 2; 6; 1; 5; 3; 7];
    [1; 5; 3; 7; 0; 4; 2; 6];
    [2; 6; 0; 4; 3; 7; 1; 5];
    [3; 7; 1; 5; 2; 6; 0; 4] ].

Definition mtile_decoder_1x : list (list Z) :=
  [ [2; 3; 0; 1];
    [6; 7; 4; 5];
    [10; 11; 8; 9];
    [14; 15; 12; 13];
    [19; 18; 17; 16];
    [23; 22; 21; 20];
    [27; 26; 25; 24];
    [31; 30; 29; 28] ].

Definition mtile_decoder_1 : list (list Z) :=
  [ [1; 5; 3; 7; 0; 4; 2; 6];
    [0; 4; 2; 6; 1; 5; 3; 7];
    [3; 7; 1; 5; 2; 6; 0; 4];
    [2; 6; 0; 4; 3; 7; 1; 5] ].

(** [t[r][c]] for a two-dimensional constant table; an index outside the
    table is an out-of-bounds access. *)
Definition at_index {A : Type} (l : list A) (i : Z) : result A :=
  if 0 <=? i then
    match l !! Z.to_nat i with
    | Some a => Ok a
    | None => Err OutOfBounds
    end
  else Err OutOfBounds.

Definition tbl (t : list (list Z)) (r c : Z) : result Z :=
  do line <- at_index t r; at_index line c.

(** ** decode_utile

    [buf] with [off] is the pointer [&buf[off]] the caller passes; [out] is
    the 64-word destination. *)

Definition decode_utile (buf : list word) (off : Z) (out : list word)
    : result (list word) :=
  for_loop 8 (fun row out =>
    for_loop 8 (fun col out =>
      do ix <- tbl utile_decoder row col;
      do v <- load buf (off + ix);
      store out (row * 8 + col) v) out) out.

(** ** decode_mtile *)

(** C's short-circuit [a && b], where evaluating [b] may fault. *)
Definition and_then (a : bool) (b : result bool) : result bool :=
  if a then b else Ok false.

(** [t[r][c] == v] *)
Definition tbl_is (t : list (list Z)) (r c v : Z) : result bool :=
  do x <- tbl t r c; Ok (x =? v).

(** The two tests of the body of the coarse-cell search: does either send
    control to [done]? *)
Definition hit_cell (odd i ur uc : Z) : result bool :=
  do h <- and_then (odd =? 0) (tbl_is mtile_decoder_0x ur uc i);
  if h then Ok true
  else and_then (negb (odd =? 0)) (tbl_is mtile_decoder_1x ur uc i).

(** [for (uc = 0; uc < 4; ++uc)] started at [uc] with [fuel = 4 - uc]
    iterations left: whether [goto done] was taken, and [uc] at that point
    ([uc = 4] when the loop ran out). *)
Fixpoint scan_uc (fuel : nat) (odd i ur uc : Z) : result (bool * Z) :=
  match fuel with
  | O => Ok (false, uc)
  | S fuel' =>
      do h <- hit_cell odd i ur uc;
      if h then Ok (true, uc) else scan_uc fuel' odd i ur (uc + 1)
  end.

(** [for (ur = 0; ur < 8; ++ur)] started at [ur] with [fuel = 8 - ur]
    iterations left; [uc] is the value the variable holds on entry.  The
    result is [(ur, uc)] at the label [done]. *)
Fixpoint scan_ur (fuel : nat) (odd i ur uc : Z) : result (Z * Z) :=
  match fuel with
  | O => Ok (ur, uc)
  | S fuel' =>
      do (found, uc') <- scan_uc 4 odd i ur 0;
      if found then Ok (ur, uc') else scan_ur fuel' odd i (ur + 1) uc'
  end.

(** The coarse cell of utile [i]: [(ur, uc)] at [done].  [uc] is not
    initialised before the loops in the source; the outer loop always runs
    its first iteration, which sets it. *)
Definition locate (odd i : Z) : result (Z * Z) :=
  scan_ur 8 odd i 0 0.

(** The two tests of the body of the row search: does either [break]? *)
Definition hit_row (odd col ur j : Z) : result bool :=
  do h <- and_then (odd =? 0) (tbl_is mtile_decoder_0 (Z.rem col 4) j ur);
  if h then Ok true
  else and_then (negb (odd =? 0)) (tbl_is mtile_decoder_1 (Z.rem col 4) j ur).

(** [for (j = 0; j < 8; ++j)] started at [j] with [fuel = 8 - j] iterations
    left: [j] after the loop. *)
Fixpoint scan_j (fuel : nat) (odd col ur j : Z) : result Z :=
  match fuel with
  | O => Ok j
  | S fuel' =>
      do h <- hit_row odd col ur j;
      if h then Ok j else scan_j fuel' odd col ur (j + 1)
  end.

Definition refine (odd col ur : Z) : result Z :=
  scan_j 8 odd col ur 0.

(** [memcpy(&dst[d], &src[s], nbytes)] on word buffers: [nbytes / 4] words. *)
Definition memcpy (dst : list word) (d : Z) (src : list word) (s : Z)
    (nbytes : Z) : result (list word) :=
  for_loop (nbytes / 4) (fun k dst =>
    do v <- load src (s + k);
    store dst (d + k) v) dst.

(** [for (r = 0; r < 8; ++r, pixrow += WIDTH) memcpy(&out[pixrow], ...)];
    [out] of the source is the pointer [&frame[base]]. *)
Definition copy_rows (utile : list word) (pixrow : Z) (frame : list word)
    (base : Z) : result (Z * list word) :=
  for_loop 8 (fun r '(pixrow, frame) =>
    do frame' <- memcpy frame (base + pixrow) utile (r * 8) 32;
    Ok (pixrow + WIDTH, frame')) (pixrow, frame).

(** The position of utile [i] in the macro tile: the asserts and the two
    searches between [decode_utile] and the copy. *)
Definition place (odd col i : Z) : result (Z * Z) :=
  do (ur, uc) <- locate odd i;
  do _ <- assert ((ur <? 8) && (uc <? 4));
  do j <- refine odd col ur;
  let ur := j in
  do _ <- assert ((ur <? 8) && (uc <? 4));
  Ok (ur, uc).

(** [buf] with [cur] is the input pointer, [frame] with [base] the output
    pointer [mtile]; [utile] is the function's static scratch block, which
    lives across calls. *)
Definition decode_mtile (buf : list word) (cur : Z) (row col : Z)
    (frame : list word) (base : Z) (utile : list word)
    : result (list word * list word) :=
  let odd := Z.rem row 2 in
  let num := NUM_WORDS_PER_UTILE in
  for_loop NUM_UTILES_PER_MTILE (fun i '(utile, frame) =>
    do utile' <- decode_utile buf (cur + i * num) utile;
    do (ur, uc) <- place odd col i;
    let pixrow := ur * 8 * WIDTH + uc * 8 in
    do (_, frame') <- copy_rows utile' pixrow frame base;
    Ok (utile', frame')) (utile, frame).

(** ** The stores of a macro-tile decode

    The copy of [decode_mtile] once more, this time keeping the record of
    every store into the frame: [memcpy_log], [copy_rows_log] and
    [decode_mtile_log] are [memcpy], [copy_rows] and [decode_mtile] with a
    log that each store into the destination extends by the frame offset it
    writes, inside [decode_mtile_log] together with the index [i] of the
    utile being placed.  The stores into the scratch block [utile] are not
    recorded. *)

Definition memcpy_log (dst : list word) (d : Z) (src : list word) (s : Z)
    (nbytes : Z) (log : list Z) : result (list word * list Z) :=
  for_loop (nbytes / 4) (fun k '(dst, log) =>
    do v <- load src (s + k);
    do dst' <- store dst (d + k) v;
    Ok (dst', log ++ [d + k])) (dst, log).

Definition copy_rows_log (utile : list word) (pixrow : Z) (frame : list word)
    (base : Z) (log : list Z) : result (Z * list word * list Z) :=
  for_loop 8 (fun r '(pixrow, frame, log) =>
    do (frame', log') <- memcpy_log frame (base + pixrow) utile (r * 8) 32 log;
    Ok (pixrow + WIDTH, frame', log')) (pixrow, frame, log).

Definition decode_mtile_log (buf : list word) (cur : Z) (row col : Z)
    (frame : list word) (base : Z) (utile : list word)
    : result (list word * list word * list (Z * Z)) :=
  let odd := Z.rem row 2 in
  let num := NUM_WORDS_PER_UTILE in
  for_loop NUM_UTILES_PER_MTILE (fun i '(utile, frame, log) =>
    do utile' <- decode_utile buf (cur + i * num) utile;
    do (ur, uc) <- place odd col i;
    let pixrow := ur * 8 * WIDTH + uc * 8 in
    do (_, frame', stores) <- copy_rows_log utile' pixrow frame base [];
    Ok (utile', frame', log ++ (pair i <$> stores))) (utile, frame, []).

(** ** The frame loop of main *)

(** The state of the double loop: the input cursor [buf], the static
    [utile] of [decode_mtile], and the output frame. *)
Definition frame_loops (buf : list word) (utile frame : list word)
    : result (Z * list word * list word) :=
  for_loop (HEIGHT / 64) (fun row st =>
    for_loop (WIDTH / 32) (fun col '(cur, utile, frame) =>
      let pixrow := row * 64 in
      let pixcol := col * 32 in
      let mtile := pixrow * WIDTH + pixcol in
      do (utile', frame') <- decode_mtile buf cur row col frame mtile utile;
      Ok (cur + NUM_UTILES_PER_MTILE * NUM_WORDS_PER_UTILE, utile', frame'))
      st) (0, utile, frame).

(** The transform on words: the zeroed output of [size / 4] words, the
    zeroed static block, and the double loop. *)
Definition detile (buf : list word) (size : Z) : result (list word) :=
  let out := replicate (Z.to_nat (size / 4)) 0 in
  let utile := replicate 64%nat 0 in
  do (_, _, out') <- frame_loops buf utile out;
  Ok out'.

(** ** main

    [main] calls the C library for everything but the decoding.  What the
    library answers is not decided by the program, so it is the input of the
    model: a [world] gives the answer of each call.  The conversions between
    integer types that [main] performs are written out. *)

(** How a run of [main] ends. *)
Inductive outcome : Type :=
  | Returned (status : Z) (written : option (list Byte.byte))
      (** [main] returns [status] to its caller; [written] is the content
          of the output file when one was written *)
  | Aborted
      (** a failed [assert] calls [abort()]: the process is killed by
          SIGABRT, [main] does not return and no status is reported *)
  | Undefined.
      (** an access outside a buffer *)

(** A [uint32_t] read from four bytes of memory, little-endian. *)
Definition word_of_bytes (b0 b1 b2 b3 : Byte.byte) : word :=
  Z.of_N (Byte.to_N b0) + 256 * (Z.of_N (Byte.to_N b1)
    + 256 * (Z.of_N (Byte.to_N b2) + 256 * Z.of_N (Byte.to_N b3))).

Fixpoint words_of_bytes (data : list Byte.byte) : list word :=
  match data with
  | b0 :: b1 :: b2 :: b3 :: rest => word_of_bytes b0 b1 b2 b3 :: words_of_bytes rest
  | _ => []
  end.

Definition byte_of (z : Z) : Byte.byte :=
  default Byte.x00 (Byte.of_N (Z.to_N (z mod 256))).

Definition bytes_of_word (w : word) : list Byte.byte :=
  [byte_of w; byte_of (w / 256); byte_of (w / 65536); byte_of (w / 16777216)].

Definition bytes_of_words (ws : list word) : list Byte.byte :=
  concat (bytes_of_word <$> ws).

(** The values of [EINVAL] and [ENOMEM] in [<errno.h>] on Linux. *)
Definition EINVAL : Z := 22.
Definition ENOMEM : Z := 12.

(** The conversion of the [long] that [ftell] returns to the [int] [size]:
    the value modulo 2^32, in the range of [int]. *)
Definition to_int (z : Z) : Z := (z + 2 ^ 31) mod 2 ^ 32 - 2 ^ 31.

(** The conversion of an [int] to [unsigned long] and to [size_t], both of
    64 bits. *)
Definition to_ulong (z : Z) : Z := z mod 2 ^ 64.

(** The answers of the C library in one run of [main]. *)
Record world : Type := {
  argc : Z;
  fopen_in : option (list Byte.byte);
    (** the content of the file [argv[1]], or [None] when [fopen] fails *)
  errno_in : Z;
    (** [errno] after a failed [fopen] of [argv[1]] *)
  ftell_result : Z;
    (** what [ftell] returns: the length of the file, or -1 *)
  malloc_buf : bool;
    (** does [malloc] return a block for [buf] *)
  fread_count : Z;
    (** how many bytes [fread] delivers *)
  junk : Z -> Byte.byte;
    (** what the bytes of the block [buf] hold where nothing was read *)
  malloc_out : bool;
    (** does [malloc] return a block for [out] *)
  fopen_out : bool;
    (** does [fopen] of [argv[2]] succeed *)
  errno_out : Z;
    (** [errno] after a failed [fopen] of [argv[2]] *)
  fwrite_count : Z
    (** how many bytes [fwrite] writes *)
}.

(** The block of [n] bytes at [buf] after [fread(buf, 1, n, f)]: the bytes
    that were delivered, from the start of the file, then whatever the
    block held. *)
Definition fread_into (w : world) (file : list Byte.byte) (n : Z)
    : list Byte.byte :=
  (fun k => default (junk w k)
              (take (Z.to_nat (fread_count w)) file !! Z.to_nat k))
  <$> seqZ 0 n.

(** [main].  The usage message printed when [argc != 3] is not part of the
    outcome. *)
Definition main (w : world) : outcome :=
  if negb (argc w =? 3) then Returned EINVAL None
  else
    match fopen_in w with
    | None => Returned (errno_in w) None
    | Some file =>
        let size := to_int (ftell_result w) in
        if negb (malloc_buf w) then Returned ENOMEM None
        else
          let buf := words_of_bytes (fread_into w file (to_ulong size)) in
          match assert (to_ulong size =? WIDTH * HEIGHT * 4) with
          | Err _ => Aborted
          | Ok _ =>
              if negb (malloc_out w) then Returned ENOMEM None
              else
                match detile buf size with
                | Err AssertFailed => Aborted
                | Err OutOfBounds => Undefined
                | Ok out =>
                    if negb (fopen_out w) then Returned (errno_out w) None
                    else
                      Returned 0
                        (Some (take (Z.to_nat (fwrite_count w))
                                 (bytes_of_words out)))
                end
          end
    end.

(** The run on [file] in which every call of the library succeeds and
    reads or writes in full. *)
Definition plain_run (file : list Byte.byte) : world :=
  {| argc := 3;
     fopen_in := Some file;
     errno_in := 0;
     ftell_result := Z.of_nat (length file);
     malloc_buf := true;
     fread_count := Z.of_nat (length file);
     junk := fun _ => Byte.x00;
     malloc_out := true;
     fopen_out := true;
     errno_out := 0;
     fwrite_count := Z.of_nat (length file) |}.

(** * Vocabulary of the statements

    Table entries as numbers, the footprints of the copies, and the map
    from a position of the output frame to the input word it receives. *)

(** A table entry as a number, for statements: the value [tbl] reads. *)
Definition entry (t : list (list Z)) (r c : Z) : Z :=
  match tbl t r c with
  | Ok v => v
  | Err _ => 0
  end.

(** The tables the tests on [odd] select. *)
Definition primary (odd : Z) : list (list Z) :=
  if odd =? 0 then mtile_decoder_0x else mtile_decoder_1x.

Definition secondary (odd : Z) : list (list Z) :=
  if odd =? 0 then mtile_decoder_0 else mtile_decoder_1.

(** The searches only test [odd] against zero and only use [col % 4]. *)
Definition norm_odd (odd : Z) : Z := if odd =? 0 then 0 else 1.

(** What the two searches establish for utile [i] of a macro tile in
    column [col]: [(ur, uc)] is the only cell of the primary table holding
    [i], [j] is the only position of row [col % 4] of the secondary table
    holding [ur], and the utile is placed at [(j, uc)]. *)
Definition placed (odd col i ur uc j : Z) : Prop :=
  locate odd i = Ok (ur, uc) /\
  (0 <= ur < 8 /\ 0 <= uc < 4) /\
  entry (primary odd) ur uc = i /\
  (forall ur' uc', 0 <= ur' < 8 -> 0 <= uc' < 4 ->
     entry (primary odd) ur' uc' = i -> ur' = ur /\ uc' = uc) /\
  refine odd col ur = Ok j /\
  0 <= j < 8 /\
  entry (secondary odd) (Z.rem col 4) j = ur /\
  (forall j', 0 <= j' < 8 ->
     entry (secondary odd) (Z.rem col 4) j' = ur -> j' = j) /\
  place odd col i = Ok (j, uc).

(** The offsets, relative to the top-left word of an 8x8 block of the
    frame, that belong to the block. *)
Definition in_block (e : Z) : bool :=
  (0 <=? e) && (e / WIDTH <? 8) && (e mod WIDTH <? 8).

(** The offsets, relative to the top-left word of a macro tile, that
    belong to its 64 rows of 32 words. *)
Definition in_mtile (d : Z) : bool :=
  (0 <=? d) && (d / WIDTH <? 64) && (d mod WIDTH <? 32).

(** The utile the tables name for the 8x8 cell that offset [d] lies in. *)
Definition utile_at (odd col d : Z) : Z :=
  entry (primary odd)
    (entry (secondary odd) (Z.rem col 4) (d / WIDTH / 8))
    (d mod WIDTH / 8).

(** The word of the macro tile's 2048-word input slice that lands at
    offset [d]. *)
Definition mtile_src (odd col d : Z) : Z :=
  utile_at odd col d * 64
  + entry utile_decoder (d / WIDTH mod 8) (d mod WIDTH mod 8).

(** The cells of the macro-tile grid. *)
Definition GRID_ROWS : Z := HEIGHT / 64.
Definition GRID_COLS : Z := WIDTH / 32.

(** One iteration of the frame loop written for the cell of row-major
    index [k]: the input slice starts at word [k * 2048], the destination
    at word [row * 64 * WIDTH + col * 32]. *)
Definition decode_cell (buf : list word) (k : Z)
    (st : Z * list word * list word) : result (Z * list word * list word) :=
  let '(_, utile, frame) := st in
  let row := k / GRID_COLS in
  let col := k mod GRID_COLS in
  do (utile', frame') <-
    decode_mtile buf (k * 2048) row col frame (row * 64 * WIDTH + col * 32) utile;
  Ok ((k + 1) * 2048, utile', frame').

(** The number of words of a frame. *)
Definition NUM_WORDS : Z := WIDTH * HEIGHT.

(** The row-major index of the macro tile that frame position [p] lies in. *)
Definition cell_of (p : Z) : Z :=
  p / WIDTH / 64 * GRID_COLS + p mod WIDTH / 32.

(** The top-left frame offset of the macro tile of row-major index [k]. *)
Definition cell_base (k : Z) : Z :=
  k / GRID_COLS * 64 * WIDTH + k mod GRID_COLS * 32.

(** The input word that lands at frame position [p]. *)
Definition frame_src (p : Z) : Z :=
  let k := cell_of p in
  k * 2048
  + mtile_src (Z.rem (k / GRID_COLS) 2) (k mod GRID_COLS) (p - cell_base k).

(** The words that four bytes of a file can hold. *)
Definition storable (w : word) : Prop :=
  words_of_bytes (bytes_of_word w) = [w].

(** The frame offsets of the 8x8 block whose top-left word is [top], in
    the order [copy_rows] stores them: row after row. *)
Definition block_stores (top : Z) : list Z :=
  (fun n => top + n / 8 * WIDTH + n mod 8) <$> seqZ 0 (8 * 8).

(** The offset, from the top-left word of the macro tile, of the cell that
    [place] gives utile [i]. *)
Definition cell_offset (odd col i : Z) : Z :=
  match place odd col i with
  | Ok (ur, uc) => ur * 8 * WIDTH + uc * 8
  | Err _ => 0
  end.

(** The stores of a macro-tile decode in order: utile after utile, each
    with the offsets of its block. *)
Definition mtile_stores (odd col base : Z) : list (Z * Z) :=
  (fun n => (n / 64,
             base + cell_offset odd col (n / 64)
             + n mod 64 / 8 * WIDTH + n mod 64 mod 8))
  <$> seqZ 0 (32 * 64).

(** The 64-row by 32-column region of the frame that belongs to the macro
    tile [(row, col)]. *)
Definition in_region (row col p : Z) : Prop :=
  exists y x,
    row * 64 <= y < row * 64 + 64 /\ col * 32 <= x < col * 32 + 32 /\
    p = y * WIDTH + x.

(** ** The inverse transform

    The transform of the specification's round-trip property.  It is not
    part of the program: it follows the specification's words, being built
    from the inverse permutations of the tables, [inverse[value] = index],
    and it sends the word at each raster position back to its place in the
    tiled buffer. *)

(** [inverse[value] = index]: the position of [v] in [l]. *)
Fixpoint index_of (l : list Z) (v : Z) : Z :=
  match l with
  | [] => 0
  | x :: l' => if x =? v then 0 else 1 + index_of l' v
  end.

Definition inv_primary (odd i : Z) : Z * Z :=
  let k := index_of (concat (primary odd)) i in (k / 4, k mod 4).

Definition inv_secondary (odd cls ur : Z) : Z :=
  index_of (nth (Z.to_nat cls) (secondary odd) []) ur.

Definition inv_utile (w : Z) : Z :=
  index_of (concat utile_decoder) w.

(** The raster position of the input word [q]. *)
Definition frame_dst (q : Z) : Z :=
  let k := q / 2048 in
  let row := k / GRID_COLS in
  let col := k mod GRID_COLS in
  let odd := Z.rem row 2 in
  let cell := inv_primary odd (q mod 2048 / 64) in
  let fr := inv_secondary odd (Z.rem col 4) (fst cell) in
  let t := inv_utile (q mod 64) in
  (row * 64 + fr * 8 + t / 8) * WIDTH + col * 32 + snd cell * 8 + t mod 8.

Definition inverse_transform (raster : list word) : list word :=
  (fun q => default 0 (get raster (frame_dst q))) <$> seqZ 0 NUM_WORDS.

(** ** Finite checks, decided by evaluation *)

Definition allZ (n : Z) (f : Z -> bool) : bool := forallb f (seqZ 0 n).

(** Everything the decoder establishes about utile [i], as a check that
    evaluates: both searches succeed in range, the entries they stop at
    match, and no other entry matches. *)
Definition placement_check (odd cls i : Z) : bool :=
  match locate odd i with
  | Ok (ur, uc) =>
      (0 <=? ur) && (ur <? 8) && (0 <=? uc) && (uc <? 4) &&
      (entry (primary odd) ur uc =? i) &&
      allZ 8 (fun ur' => allZ 4 (fun uc' =>
        implb (entry (primary odd) ur' uc' =? i) ((ur' =? ur) && (uc' =? uc)))) &&
      match refine odd cls ur with
      | Ok j =>
          (0 <=? j) && (j <? 8) &&
          (entry (secondary odd) cls j =? ur) &&
          allZ 8 (fun j' =>
            implb (entry (secondary odd) cls j' =? ur) (j' =? j)) &&
          match place odd cls i with
          | Ok (fr, uc') => (fr =? j) && (uc' =? uc)
          | Err _ => false
          end
      | Err _ => false
      end
  | Err _ => false
  end.

(** Every table entry is read in range. *)
Definition tables_check (odd cls : Z) : bool :=
  allZ 8 (fun r => allZ 4 (fun c =>
    match tbl (primary odd) r c with
    | Ok v => (0 <=? v) && (v <? 32)
    | Err _ => false
    end)) &&
  allZ 8 (fun j =>
    match tbl (secondary odd) cls j with
    | Ok v => (0 <=? v) && (v <? 8)
    | Err _ => false
    end).

Definition inverse_check (odd cls : Z) : bool :=
  allZ 32 (fun i =>
    let cell := inv_primary odd i in
    let fr := inv_secondary odd cls (fst cell) in
    (0 <=? fr) && (fr <? 8) && (0 <=? snd cell) && (snd cell <? 4) &&
    (entry (primary odd) (entry (secondary odd) cls fr) (snd cell) =? i)) &&
  allZ 8 (fun fr => allZ 4 (fun uc =>
    let ur := entry (secondary odd) cls fr in
    let cell := inv_primary odd (entry (primary odd) ur uc) in
    (fst cell =? ur) && (snd cell =? uc) &&
    (inv_secondary odd cls ur =? fr))).

(** * Properties *)

(** ** The error monad and the loops *)

Lemma bind_Ok {A B : Type} (c : result A) (k : A -> result B) (b : B) :
  bind c k = Ok b <-> exists a, c = Ok a /\ k a = Ok b.
Proof.
  destruct c as [a|e]; simpl; split.
  - eauto.
  - intros (a' & Ha & Hk). congruence.
  - discriminate.
  - intros (a' & Ha & _). discriminate.
Qed.

(** The invariant rule for a counted loop, with termination: if [I] holds
    on entry and every iteration in range succeeds and re-establishes it at
    the next counter, the loop succeeds in a state satisfying [I n]. *)
Lemma for_from_inv {St : Type} (I : Z -> St -> Prop) (body : Z -> St -> result St)
    (fuel : nat) :
  forall (i : Z) (s : St),
    I i s ->
    (forall k t, i <= k < i + Z.of_nat fuel -> I k t ->
       exists t', body k t = Ok t' /\ I (k + 1) t') ->
    exists s', for_from fuel i body s = Ok s' /\ I (i + Z.of_nat fuel) s'.
Proof.
  induction fuel as [|fuel IH]; intros i s Hi Hstep.
  - exists s. split; [reflexivity|]. now replace (i + Z.of_nat 0) with i by lia.
  - destruct (Hstep i s) as (t & Hb & Ht); [lia|assumption|].
    destruct (IH (i + 1) t Ht) as (s' & Hs' & HI).
    + intros k u Hk Hu. apply Hstep; [lia|assumption].
    + exists s'. split.
      * simpl. rewrite Hb. exact Hs'.
      * now replace (i + Z.of_nat (S fuel)) with (i + 1 + Z.of_nat fuel) by lia.
Qed.

Lemma for_loop_inv {St : Type} (I : Z -> St -> Prop) (n : Z)
    (body : Z -> St -> result St) (s : St) :
  0 <= n ->
  I 0 s ->
  (forall i t, 0 <= i < n -> I i t -> exists t', body i t = Ok t' /\ I (i + 1) t') ->
  exists s', for_loop n body s = Ok s' /\ I n s'.
Proof.
  intros Hn H0 Hstep. unfold for_loop.
  destruct (for_from_inv I body (Z.to_nat n) 0 s H0) as (s' & Hs' & HI).
  - intros k t Hk. apply Hstep. lia.
  - exists s'. split; [exact Hs'|]. now replace n with (0 + Z.of_nat (Z.to_nat n)) by lia.
Qed.

(** Two loops whose bodies agree on the counters they run through agree. *)
Lemma for_from_ext {St : Type} (b1 b2 : Z -> St -> result St) (fuel : nat) :
  forall (i : Z) (s : St),
    (forall k t, i <= k < i + Z.of_nat fuel -> b1 k t = b2 k t) ->
    for_from fuel i b1 s = for_from fuel i b2 s.
Proof.
  induction fuel as [|fuel IH]; intros i s Hb; [reflexivity|].
  simpl. rewrite (Hb i s) by lia.
  destruct (b2 i s) as [t|e]; simpl; [|reflexivity].
  apply IH. intros k u Hk. apply Hb. lia.
Qed.

Lemma for_loop_ext {St : Type} (b1 b2 : Z -> St -> result St) (n : Z) (s : St) :
  (forall i t, 0 <= i < n -> b1 i t = b2 i t) ->
  for_loop n b1 s = for_loop n b2 s.
Proof.
  intros Hb. unfold for_loop. apply for_from_ext. intros k t Hk. apply Hb. lia.
Qed.

(** Linear arithmetic with division and remainder by constants. *)
Ltac divlia := Z.to_euclidean_division_equations; lia.

(** ** Word buffers *)

Lemma get_Some_iff (m : list word) (p : Z) :
  (exists v, get m p = Some v) <-> 0 <= p < len m.
Proof.
  unfold get, len. destruct (Z.leb_spec 0 p) as [Hp|Hp].
  - change (exists v, m !! Z.to_nat p = Some v) with (is_Some (m !! Z.to_nat p)).
    rewrite lookup_lt_is_Some. lia.
  - split; [intros (v & Hv); discriminate | lia].
Qed.

Lemma get_None_iff (m : list word) (p : Z) :
  get m p = None <-> ~ (0 <= p < len m).
Proof.
  rewrite <- get_Some_iff. destruct (get m p) as [v|]; split; try easy.
  - intros H. exfalso. apply H. eauto.
  - intros _ (v & Hv). discriminate.
Qed.

Lemma load_get (m : list word) (p : Z) :
  0 <= p < len m -> exists v, load m p = Ok v /\ get m p = Some v.
Proof.
  intros Hp. apply get_Some_iff in Hp as (v & Hv).
  exists v. unfold load. now rewrite Hv.
Qed.

Lemma store_get (m : list word) (p : Z) (v : word) :
  0 <= p < len m ->
  exists m', store m p v = Ok m' /\ len m' = len m /\
    forall q, get m' q = if q =? p then Some v else get m q.
Proof.
  intros Hp. exists (<[Z.to_nat p := v]> m). unfold store, len in *.
  destruct (Z.leb_spec 0 p); [|lia]. destruct (Z.ltb_spec p (Z.of_nat (length m))); [|lia].
  split; [reflexivity|]. split; [now rewrite length_insert|].
  intros q. unfold get. destruct (Z.eqb_spec q p) as [->|Hne].
  - destruct (Z.leb_spec 0 p); [|lia]. apply list_lookup_insert_eq. lia.
  - destruct (Z.leb_spec 0 q); [|reflexivity]. apply list_lookup_insert_ne. lia.
Qed.

(** Buffers of equal contents at every offset are equal. *)
Lemma get_ext (m1 m2 : list word) :
  (forall p, get m1 p = get m2 p) -> m1 = m2.
Proof.
  intros H. apply list_eq. intros i. specialize (H (Z.of_nat i)).
  unfold get in H. destruct (Z.leb_spec 0 (Z.of_nat i)); [|lia].
  now rewrite Nat2Z.id in H.
Qed.

(** ** Finite checks by evaluation *)

Lemma allZ_spec (n : Z) (f : Z -> bool) :
  allZ n f = true -> forall i, 0 <= i < n -> f i = true.
Proof.
  unfold allZ. rewrite forallb_forall. intros H i Hi. apply H.
  apply list_elem_of_In, elem_of_seqZ. lia.
Qed.

Lemma tbl_utile (r c : Z) :
  0 <= r < 8 -> 0 <= c < 8 ->
  tbl utile_decoder r c = Ok (entry utile_decoder r c) /\
  0 <= entry utile_decoder r c < 64.
Proof.
  intros Hr Hc.
  assert (H : allZ 8 (fun r => allZ 8 (fun c =>
            match tbl utile_decoder r c with
            | Ok v => (0 <=? v) && (v <? 64)
            | Err _ => false
            end)) = true) by (vm_compute; reflexivity).
  pose proof (allZ_spec _ _ (allZ_spec _ _ H r Hr) c Hc) as Hrc. simpl in Hrc.
  unfold entry. destruct (tbl utile_decoder r c) as [v|e]; [|discriminate].
  split; [reflexivity|lia].
Qed.

(** ** decode_utile *)

(** Run on a 64-word block at [&buf[off]], [decode_utile] succeeds and
    fills the whole destination: position [row * 8 + col] receives the
    input word the table names. *)
Lemma decode_utile_spec (buf : list word) (off : Z) (out : list word) :
  0 <= off -> off + 64 <= len buf -> len out = 64 ->
  exists out', decode_utile buf off out = Ok out' /\ len out' = 64 /\
    forall row col, 0 <= row < 8 -> 0 <= col < 8 ->
      get out' (row * 8 + col) = get buf (off + entry utile_decoder row col).
Proof.
  intros Hoff Hbuf Hout. unfold decode_utile.
  apply (for_loop_inv (fun row o => len o = 64 /\
           forall r c, 0 <= r < row -> 0 <= c < 8 ->
             get o (r * 8 + c) = get buf (off + entry utile_decoder r c))).
  - lia.
  - split; [assumption|]. intros; lia.
  - intros row o Hrow (Hlen & Hdone).
    destruct (for_loop_inv (fun col o' => len o' = 64 /\
                (forall r c, 0 <= r < row -> 0 <= c < 8 ->
                   get o' (r * 8 + c) = get buf (off + entry utile_decoder r c)) /\
                (forall c, 0 <= c < col ->
                   get o' (row * 8 + c) = get buf (off + entry utile_decoder row c)))
              8
              (fun col out0 =>
                 do ix <- tbl utile_decoder row col;
                 do v <- load buf (off + ix);
                 store out0 (row * 8 + col) v) o) as (o' & Ho' & Hl' & Hd' & Hrow').
    + lia.
    + repeat split; [assumption|assumption|]. intros; lia.
    + intros col o1 Hcol (Hl1 & Hd1 & Hr1).
      destruct (tbl_utile row col Hrow Hcol) as (Ht & Hix). rewrite Ht. simpl.
      destruct (load_get buf (off + entry utile_decoder row col)) as (v & Hv & Hg);
        [lia|]. rewrite Hv. simpl.
      destruct (store_get o1 (row * 8 + col) v) as (o2 & Hs & Hl2 & Hq); [lia|].
      exists o2. split; [exact Hs|]. split; [lia|]. split.
      * intros r c Hr Hc. rewrite Hq.
        destruct (Z.eqb_spec (r * 8 + c) (row * 8 + col)); [lia|]. now apply Hd1.
      * intros c Hc. rewrite Hq.
        destruct (Z.eqb_spec (row * 8 + c) (row * 8 + col)) as [E|E].
        -- assert (c = col) by lia. subst c. now rewrite Hg.
        -- apply Hr1. lia.
    + exists o'. split; [exact Ho'|]. split; [exact Hl'|].
      intros r c Hr Hc. destruct (Z.eq_dec r row) as [->|Hne].
      * now apply Hrow'.
      * apply Hd'; [lia|assumption].
Qed.

(** The utile table read as a map on [0, 64) is its own inverse. *)
Lemma utile_decoder_self_inverse (p : Z) :
  0 <= p < 64 ->
  let e := entry utile_decoder (p / 8) (p mod 8) in
  0 <= e < 64 /\ entry utile_decoder (e / 8) (e mod 8) = p.
Proof.
  intros Hp.
  assert (H : allZ 64 (fun p =>
            let e := entry utile_decoder (p / 8) (p mod 8) in
            (0 <=? e) && (e <? 64) &&
            (entry utile_decoder (e / 8) (e mod 8) =? p)) = true)
    by (vm_compute; reflexivity).
  pose proof (allZ_spec _ _ H p Hp) as Hpp. simpl in Hpp. simpl. lia.
Qed.

(** C3: for a 64-word input block (at [&buf[off]]) and every raster
    position [(row, col)] of the 8x8 block, [decode_utile] produces
    [output[row*8+col] = input[table[row][col]]], [table] being
    [utile_decoder]. *)
Theorem decode_utile_follows_table (buf : list word) (off : Z) (out : list word) :
  0 <= off -> off + 64 <= len buf -> len out = 64 ->
  exists out', decode_utile buf off out = Ok out' /\
    forall row col, 0 <= row < 8 -> 0 <= col < 8 ->
      exists ix v, tbl utile_decoder row col = Ok ix /\
        get buf (off + ix) = Some v /\
        get out' (row * 8 + col) = Some v.
Proof.
  intros Hoff Hbuf Hout.
  destruct (decode_utile_spec buf off out Hoff Hbuf Hout) as (out' & Hrun & _ & Hget).
  exists out'. split; [exact Hrun|]. intros row col Hrow Hcol.
  destruct (tbl_utile row col Hrow Hcol) as (Ht & Hix).
  destruct (proj2 (get_Some_iff buf (off + entry utile_decoder row col))) as (v & Hv);
    [lia|].
  exists (entry utile_decoder row col), v.
  split; [exact Ht|]. split; [exact Hv|]. now rewrite Hget.
Qed.

Lemma decode_utile_follows_table_witness :
  exists out', decode_utile (seqZ 0 64) 0 (replicate 64%nat 0) = Ok out' /\
    forall row col, 0 <= row < 8 -> 0 <= col < 8 ->
      exists ix v, tbl utile_decoder row col = Ok ix /\
        get (seqZ 0 64) (0 + ix) = Some v /\
        get out' (row * 8 + col) = Some v.
Proof.
  apply (decode_utile_follows_table (seqZ 0 64) 0 (replicate 64%nat 0)).
  - lia.
  - vm_compute. discriminate.
  - reflexivity.
Defined.

(** C9: [decode_utile] is an involution: decoding the decoded block gives
    back the original 64 words. *)
Theorem decode_utile_involution (buf out0 out1 : list word) :
  len buf = 64 -> len out0 = 64 -> len out1 = 64 ->
  exists mid, decode_utile buf 0 out0 = Ok mid /\
              decode_utile mid 0 out1 = Ok buf.
Proof.
  intros Hbuf H0 H1.
  destruct (decode_utile_spec buf 0 out0) as (mid & Hmid & Hlm & Hgm); [lia..|].
  destruct (decode_utile_spec mid 0 out1) as (fin & Hfin & Hlf & Hgf); [lia..|].
  exists mid. split; [exact Hmid|]. rewrite Hfin. f_equal.
  apply get_ext. intros p.
  destruct (Z_lt_le_dec p 0) as [Hneg|Hpos]; [|destruct (Z_lt_le_dec p 64) as [Hlt|Hge]].
  - transitivity (@None word); [|symmetry]; apply get_None_iff; lia.
  - destruct (utile_decoder_self_inverse p) as (He & Hinv); [lia|].
    set (e := entry utile_decoder (p / 8) (p mod 8)) in *.
    replace p with (p / 8 * 8 + p mod 8) at 1 by divlia.
    rewrite Hgf by divlia. fold e.
    replace (0 + e) with (e / 8 * 8 + e mod 8) by divlia.
    rewrite Hgm by divlia. now rewrite Hinv.
  - transitivity (@None word); [|symmetry]; apply get_None_iff; lia.
Qed.

Lemma decode_utile_involution_witness :
  exists mid, decode_utile (seqZ 100 64) 0 (replicate 64%nat 0) = Ok mid /\
              decode_utile mid 0 (replicate 64%nat 7) = Ok (seqZ 100 64).
Proof.
  apply (decode_utile_involution (seqZ 100 64) (replicate 64%nat 0) (replicate 64%nat 7));
    reflexivity.
Defined.

(** ** The tables are permutations *)

(** A list without duplicates that has [n] entries and contains every
    number of [0, n) is a permutation of [0, n); the three premises are
    decided by evaluation on a constant table. *)
Lemma permutation_of_range (l : list Z) (n : Z) :
  bool_decide (NoDup l) = true ->
  forallb (fun x => bool_decide (x ∈ l)) (seqZ 0 n) = true ->
  len l = n ->
  Permutation l (seqZ 0 n).
Proof.
  intros Hnd Hall Hlen. apply bool_decide_eq_true in Hnd.
  symmetry. apply submseteq_length_Permutation.
  - apply NoDup_submseteq; [apply NoDup_seqZ|].
    intros x Hx. rewrite forallb_forall in Hall.
    specialize (Hall x). rewrite <- list_elem_of_In in Hall.
    apply Hall in Hx. now apply bool_decide_eq_true in Hx.
  - rewrite length_seqZ. unfold len in Hlen. lia.
Qed.

(** C4: the 32 entries of each primary table are a permutation of 0..31,
    every row of each secondary table is a permutation of 0..7, and the 64
    entries of the utile table are a permutation of 0..63. *)
Theorem tables_are_permutations :
  Permutation (concat mtile_decoder_0x) (seqZ 0 32) /\
  Permutation (concat mtile_decoder_1x) (seqZ 0 32) /\
  Forall (fun line => Permutation line (seqZ 0 8)) mtile_decoder_0 /\
  Forall (fun line => Permutation line (seqZ 0 8)) mtile_decoder_1 /\
  Permutation (concat utile_decoder) (seqZ 0 64).
Proof.
  unfold mtile_decoder_0, mtile_decoder_1.
  repeat split;
    repeat apply List.Forall_cons;
    try apply List.Forall_nil;
    apply permutation_of_range; vm_compute; reflexivity.
Qed.

(** ** The placement of a utile in its macro tile *)

Lemma hit_cell_norm (odd i ur uc : Z) :
  hit_cell odd i ur uc = hit_cell (norm_odd odd) i ur uc.
Proof. unfold hit_cell, norm_odd. now destruct (odd =? 0). Qed.

Lemma scan_uc_norm (fuel : nat) (odd i ur : Z) :
  forall uc, scan_uc fuel odd i ur uc = scan_uc fuel (norm_odd odd) i ur uc.
Proof.
  induction fuel as [|fuel IH]; intros uc; simpl; [reflexivity|].
  rewrite hit_cell_norm. destruct (hit_cell (norm_odd odd) i ur uc) as [[|]|e];
    simpl; auto.
Qed.

Lemma scan_ur_norm (fuel : nat) (odd i : Z) :
  forall ur uc, scan_ur fuel odd i ur uc = scan_ur fuel (norm_odd odd) i ur uc.
Proof.
  induction fuel as [|fuel IH]; intros ur uc; [reflexivity|].
  cbn [scan_ur]. rewrite scan_uc_norm.
  destruct (scan_uc 4 (norm_odd odd) i ur 0) as [[[|] uc']|e]; simpl; auto.
Qed.

Lemma hit_row_norm (odd col ur j : Z) :
  hit_row odd col ur j = hit_row (norm_odd odd) (Z.rem col 4) ur j.
Proof.
  unfold hit_row, norm_odd. rewrite Z.rem_rem by lia. now destruct (odd =? 0).
Qed.

Lemma scan_j_norm (fuel : nat) (odd col ur : Z) :
  forall j, scan_j fuel odd col ur j
            = scan_j fuel (norm_odd odd) (Z.rem col 4) ur j.
Proof.
  induction fuel as [|fuel IH]; intros j; simpl; [reflexivity|].
  rewrite hit_row_norm.
  destruct (hit_row (norm_odd odd) (Z.rem col 4) ur j) as [[|]|e]; simpl; auto.
Qed.

Lemma place_norm (odd col i : Z) :
  place odd col i = place (norm_odd odd) (Z.rem col 4) i.
Proof.
  unfold place, locate, refine. rewrite scan_ur_norm.
  destruct (scan_ur 8 (norm_odd odd) i 0 0) as [[ur uc]|e]; cbn [bind];
    [|reflexivity].
  destruct (assert ((ur <? 8) && (uc <? 4))); cbn [bind]; [|reflexivity].
  now rewrite scan_j_norm.
Qed.

Lemma primary_norm (odd : Z) : primary (norm_odd odd) = primary odd.
Proof. unfold primary, norm_odd. now destruct (odd =? 0). Qed.

Lemma secondary_norm (odd : Z) : secondary (norm_odd odd) = secondary odd.
Proof. unfold secondary, norm_odd. now destruct (odd =? 0). Qed.

Lemma norm_odd_range (odd : Z) : 0 <= norm_odd odd < 2.
Proof. unfold norm_odd. destruct (odd =? 0); lia. Qed.

Lemma rem4_range (col : Z) : 0 <= col -> 0 <= Z.rem col 4 < 4.
Proof. intros H. apply Z.rem_bound_pos; lia. Qed.

Lemma placement_check_all :
  allZ 2 (fun odd => allZ 4 (fun cls => allZ 32 (fun i =>
    placement_check odd cls i))) = true.
Proof. vm_compute. reflexivity. Qed.

Lemma tables_check_all :
  allZ 2 (fun odd => allZ 4 (fun cls => tables_check odd cls)) = true.
Proof. vm_compute. reflexivity. Qed.

Lemma tbl_primary (odd r c : Z) :
  0 <= r < 8 -> 0 <= c < 4 ->
  tbl (primary odd) r c = Ok (entry (primary odd) r c) /\
  0 <= entry (primary odd) r c < 32.
Proof.
  intros Hr Hc. rewrite <- (primary_norm odd).
  pose proof (allZ_spec _ _ (allZ_spec _ _ tables_check_all _ (norm_odd_range odd)) 0)
    as H.
  cbv beta in H. unfold tables_check in H.
  apply andb_prop in H as [H _]; [|lia].
  pose proof (allZ_spec _ _ (allZ_spec _ _ H r Hr) c Hc) as Hrc. cbv beta in Hrc.
  unfold entry. destruct (tbl (primary (norm_odd odd)) r c) as [v|e]; [|discriminate].
  split; [reflexivity|lia].
Qed.

Lemma tbl_secondary (odd col j : Z) :
  0 <= col -> 0 <= j < 8 ->
  tbl (secondary odd) (Z.rem col 4) j = Ok (entry (secondary odd) (Z.rem col 4) j) /\
  0 <= entry (secondary odd) (Z.rem col 4) j < 8.
Proof.
  intros Hcol Hj. rewrite <- (secondary_norm odd).
  pose proof (allZ_spec _ _ (allZ_spec _ _ tables_check_all _ (norm_odd_range odd))
                _ (rem4_range col Hcol)) as H.
  cbv beta in H. unfold tables_check in H.
  apply andb_prop in H as [_ H].
  pose proof (allZ_spec _ _ H j Hj) as Hrc. cbv beta in Hrc.
  unfold entry.
  destruct (tbl (secondary (norm_odd odd)) (Z.rem col 4) j) as [v|e]; [|discriminate].
  split; [reflexivity|lia].
Qed.

Lemma placement_check_sound (odd cls i : Z) :
  0 <= cls < 4 ->
  placement_check odd cls i = true ->
  exists ur uc j, placed odd cls i ur uc j.
Proof.
  intros Hcls H. unfold placement_check in H.
  destruct (locate odd i) as [[ur uc]|e] eqn:Hloc; [|discriminate].
  destruct (refine odd cls ur) as [j|e] eqn:Href;
    [|rewrite andb_false_r in H; discriminate].
  destruct (place odd cls i) as [[fr uc']|e] eqn:Hpl;
    [|rewrite !andb_false_r in H; discriminate].
  repeat match goal with
         | Hb : _ && _ = true |- _ => apply andb_prop in Hb as [? ?]
         end.
  assert (Hrem : Z.rem cls 4 = cls) by (apply Z.rem_small; lia).
  exists ur, uc, j. unfold placed. rewrite Hrem.
  split; [exact Hloc|]. split; [lia|]. split; [lia|]. split.
  { intros ur' uc'' Hu Hc Heq.
    match goal with
    | Hall : allZ 8 (fun _ => allZ 4 _) = true |- _ =>
        pose proof (allZ_spec _ _ (allZ_spec _ _ Hall _ Hu) _ Hc) as Hx
    end.
    cbv beta in Hx. rewrite (proj2 (Z.eqb_eq _ _) Heq) in Hx. simpl in Hx.
    apply andb_prop in Hx. lia. }
  split; [exact Href|]. split; [lia|]. split; [lia|]. split.
  { intros j' Hj' Heq.
    match goal with
    | Hall : allZ 8 (fun _ => implb _ _) = true |- _ =>
        pose proof (allZ_spec _ _ Hall _ Hj') as Hx
    end.
    cbv beta in Hx. rewrite (proj2 (Z.eqb_eq _ _) Heq) in Hx. simpl in Hx. lia. }
  rewrite Hpl. f_equal. f_equal; lia.
Qed.

(** Both searches succeed for every utile of every macro tile. *)
Lemma placement (odd col i : Z) :
  0 <= col -> 0 <= i < 32 ->
  exists ur uc j, placed odd col i ur uc j.
Proof.
  intros Hcol Hi.
  pose proof (rem4_range col Hcol) as Hcls.
  destruct (placement_check_sound (norm_odd odd) (Z.rem col 4) i Hcls)
    as (ur & uc & j & Hloc & Hrange & HP & HPu & Href & Hj & HS & HSu & Hpl).
  - exact (allZ_spec _ _ (allZ_spec _ _ (allZ_spec _ _ placement_check_all _
             (norm_odd_range odd)) _ Hcls) _ Hi).
  - exists ur, uc, j. unfold placed.
    rewrite primary_norm, secondary_norm, Z.rem_rem in * by lia.
    unfold locate, refine in *.
    rewrite scan_ur_norm, scan_j_norm, place_norm.
    repeat split; try assumption; try lia.
    + now apply (HPu ur' uc').
    + now apply (HPu ur' uc').
Qed.

(** Conversely, every cell [(fr, uc)] of the macro tile is the place of
    the utile the tables name for it. *)
Lemma place_complete (odd col fr uc : Z) :
  0 <= col -> 0 <= fr < 8 -> 0 <= uc < 4 ->
  let i := entry (primary odd) (entry (secondary odd) (Z.rem col 4) fr) uc in
  0 <= i < 32 /\ place odd col i = Ok (fr, uc).
Proof.
  intros Hcol Hfr Huc i.
  destruct (tbl_secondary odd col fr Hcol Hfr) as (_ & Hur).
  destruct (tbl_primary odd _ uc Hur Huc) as (_ & Hi). fold i in Hi.
  split; [exact Hi|].
  destruct (placement odd col i Hcol Hi)
    as (ur0 & uc0 & j0 & _ & _ & _ & HPu & _ & _ & _ & HSu & Hpl).
  destruct (HPu _ uc Hur Huc eq_refl) as [Eur Euc].
  rewrite Hpl. f_equal. f_equal; [|congruence].
  symmetry. apply HSu; [assumption|congruence].
Qed.

(** ** The copy of a decoded block into the frame *)

(** Case analysis on every integer comparison of the goal. *)
Ltac zcases :=
  repeat match goal with
         | |- context [?a <=? ?b] => destruct (Z.leb_spec a b)
         | |- context [?a <? ?b] => destruct (Z.ltb_spec a b)
         | |- context [?a =? ?b] => destruct (Z.eqb_spec a b)
         end;
  cbn [andb orb negb].

Lemma memcpy_spec (dst : list word) (d : Z) (src : list word) (s : Z) :
  0 <= d -> d + 8 <= len dst -> 0 <= s -> s + 8 <= len src ->
  exists dst', memcpy dst d src s 32 = Ok dst' /\ len dst' = len dst /\
    forall p, get dst' p =
      if (d <=? p) && (p <? d + 8) then get src (s + (p - d)) else get dst p.
Proof.
  intros Hd Hdst Hs Hsrc. unfold memcpy. change (32 / 4) with 8.
  apply (for_loop_inv (fun k m => len m = len dst /\
           forall p, get m p =
             if (d <=? p) && (p <? d + k) then get src (s + (p - d))
             else get dst p)).
  - lia.
  - split; [reflexivity|]. intros p. zcases; try reflexivity; lia.
  - intros k m Hk (Hlen & Hm).
    destruct (load_get src (s + k)) as (v & Hv & Hg); [lia|]. rewrite Hv. simpl.
    destruct (store_get m (d + k) v) as (m' & Hst & Hl' & Hq); [lia|].
    exists m'. split; [exact Hst|]. split; [lia|].
    intros p. rewrite Hq, Hm.
    zcases; try reflexivity; try lia.
    subst p. rewrite <- Hg. f_equal. lia.
Qed.

Lemma copy_rows_spec (utile : list word) (pixrow : Z) (frame : list word)
    (base : Z) :
  len utile = 64 ->
  0 <= base + pixrow -> base + pixrow + 7 * WIDTH + 8 <= len frame ->
  exists pr frame', copy_rows utile pixrow frame base = Ok (pr, frame') /\
    len frame' = len frame /\
    forall p, get frame' p =
      let e := p - (base + pixrow) in
      if in_block e then get utile (e / WIDTH * 8 + e mod WIDTH)
      else get frame p.
Proof.
  intros Hu Hlo Hhi. unfold copy_rows.
  destruct (for_loop_inv (fun r (st : Z * list Z) =>
              fst st = pixrow + r * WIDTH /\ len (snd st) = len frame /\
              forall p, get (snd st) p =
                let e := p - (base + pixrow) in
                if in_block e && (e / WIDTH <? r)
                then get utile (e / WIDTH * 8 + e mod WIDTH)
                else get frame p)
            8
            (fun r '(pixrow0, frame0) =>
               do frame' <- memcpy frame0 (base + pixrow0) utile (r * 8) 32;
               Ok (pixrow0 + WIDTH, frame'))
            (pixrow, frame)) as ([pr f] & Hrun & _ & Hlen & Hget).
  - lia.
  - simpl. split; [lia|]. split; [reflexivity|].
    intros p. unfold in_block, WIDTH. zcases; try reflexivity. divlia.
  - intros r [pr f] Hr (Hpr & Hlen & Hget). simpl in Hpr, Hlen, Hget. subst pr.
    unfold WIDTH in *.
    destruct (memcpy_spec f (base + (pixrow + r * 1280)) utile (r * 8))
      as (f' & Hcp & Hl' & Hq); [lia..|].
    rewrite Hcp. simpl. exists (pixrow + r * 1280 + 1280, f').
    split; [reflexivity|]. simpl. split; [lia|]. split; [lia|].
    intros p. rewrite Hq, Hget. unfold in_block, WIDTH.
    zcases; try reflexivity; try divlia.
    f_equal. divlia.
  - exists pr, f. split; [exact Hrun|]. split; [exact Hlen|].
    intros p. rewrite Hget. simpl. unfold in_block, WIDTH.
    zcases; try reflexivity; lia.
Qed.

(** ** decode_mtile *)

Lemma block_in_mtile (fr uc d : Z) :
  0 <= fr < 8 -> 0 <= uc < 4 ->
  in_block (d - (fr * 8 * WIDTH + uc * 8))
  = in_mtile d && (d / WIDTH / 8 =? fr) && (d mod WIDTH / 8 =? uc).
Proof.
  intros Hfr Huc. unfold in_block, in_mtile, WIDTH.
  zcases; try reflexivity; divlia.
Qed.

Lemma block_coords (fr uc d : Z) :
  0 <= fr < 8 -> 0 <= uc < 4 ->
  in_block (d - (fr * 8 * WIDTH + uc * 8)) = true ->
  (d - (fr * 8 * WIDTH + uc * 8)) / WIDTH = d / WIDTH mod 8 /\
  (d - (fr * 8 * WIDTH + uc * 8)) mod WIDTH = d mod WIDTH mod 8 /\
  0 <= d / WIDTH mod 8 < 8 /\ 0 <= d mod WIDTH mod 8 < 8.
Proof.
  intros Hfr Huc. unfold in_block, WIDTH.
  zcases; try discriminate. intros _. divlia.
Qed.

Lemma in_mtile_cell (d : Z) :
  in_mtile d = true -> 0 <= d / WIDTH / 8 < 8 /\ 0 <= d mod WIDTH / 8 < 4.
Proof.
  unfold in_mtile, WIDTH. zcases; try discriminate. intros _. divlia.
Qed.

(** Run on a 2048-word slice at [&buf[cur]] and a destination at
    [&frame[base]] that holds 64 rows, [decode_mtile] succeeds; afterwards
    each word of the destination region holds the input word [mtile_src]
    names and every other word of the frame is unchanged. *)
Lemma decode_mtile_spec (buf : list word) (cur row col : Z)
    (frame : list word) (base : Z) (utile : list word) :
  0 <= col ->
  0 <= cur -> cur + 2048 <= len buf ->
  0 <= base -> base + 63 * WIDTH + 32 <= len frame ->
  len utile = 64 ->
  exists utile' frame',
    decode_mtile buf cur row col frame base utile = Ok (utile', frame') /\
    len utile' = 64 /\ len frame' = len frame /\
    forall p, get frame' p =
      if in_mtile (p - base)
      then get buf (cur + mtile_src (Z.rem row 2) col (p - base))
      else get frame p.
Proof.
  intros Hcol Hcur Hbuf Hbase Hframe Hutile. unfold decode_mtile.
  set (odd := Z.rem row 2). cbv zeta.
  destruct (for_loop_inv (fun i (st : list Z * list Z) =>
              len (fst st) = 64 /\ len (snd st) = len frame /\
              forall p, get (snd st) p =
                if in_mtile (p - base) && (utile_at odd col (p - base) <? i)
                then get buf (cur + mtile_src odd col (p - base))
                else get frame p)
            NUM_UTILES_PER_MTILE
            (fun i '(utile0, frame0) =>
               do utile' <- decode_utile buf (cur + i * NUM_WORDS_PER_UTILE) utile0;
               do (ur, uc) <- place odd col i;
               do (_, frame') <-
                 copy_rows utile' (ur * 8 * WIDTH + uc * 8) frame0 base;
               Ok (utile', frame'))
            (utile, frame)) as ([u f] & Hrun & Hlu & Hlf & Hget).
  - unfold NUM_UTILES_PER_MTILE. lia.
  - simpl. split; [assumption|]. split; [reflexivity|].
    intros p. destruct (in_mtile (p - base)) eqn:Hin; [|reflexivity].
    apply in_mtile_cell in Hin as (Hfr & Huc).
    destruct (tbl_secondary odd col _ Hcol Hfr) as (_ & Hur).
    destruct (tbl_primary odd _ _ Hur Huc) as (_ & Hi).
    unfold utile_at. zcases; [lia|reflexivity].
  - intros i [u f] Hi (Hlu & Hlf & Hget). simpl in Hlu, Hlf, Hget.
    unfold NUM_UTILES_PER_MTILE in Hi.
    unfold NUM_WORDS_PER_UTILE. change (8 * 8) with 64.
    destruct (decode_utile_spec buf (cur + i * 64) u) as (u' & Hdu & Hlu' & Hgu');
      [lia..|].
    destruct (placement odd col i Hcol)
      as (ur & uc & j & _ & (Hur & Huc) & HP & _ & _ & Hj & HS & _ & Hpl); [lia|].
    destruct (copy_rows_spec u' (j * 8 * WIDTH + uc * 8) f base)
      as (pr & f' & Hcr & Hlf' & Hgf');
      [exact Hlu' | unfold WIDTH in *; lia | unfold WIDTH in *; lia |].
    exists (u', f'). split.
    { rewrite Hdu. cbn [bind]. rewrite Hpl. cbn [bind]. now rewrite Hcr. }
    simpl. split; [exact Hlu'|]. split; [lia|].
    intros p. rewrite Hgf'. cbv zeta.
    replace (p - (base + (j * 8 * WIDTH + uc * 8)))
      with (p - base - (j * 8 * WIDTH + uc * 8)) by lia.
    set (d := p - base).
    destruct (in_block (d - (j * 8 * WIDTH + uc * 8))) eqn:Hblk.
    + destruct (block_coords j uc d Hj Huc Hblk) as (Eq & Em & Hq & Hm).
      rewrite block_in_mtile in Hblk by assumption.
      apply andb_prop in Hblk as [Hblk Euc]. apply andb_prop in Hblk as [Hin Efr].
      apply Z.eqb_eq in Euc, Efr.
      assert (Hat : utile_at odd col d = i).
      { unfold utile_at. rewrite Efr, Euc, HS. exact HP. }
      rewrite Hin. cbn [andb]. rewrite Hat.
      destruct (Z.ltb_spec i (i + 1)); [|lia].
      rewrite Eq, Em, Hgu' by assumption. f_equal.
      unfold mtile_src. rewrite Hat. lia.
    + rewrite Hget. fold d. destruct (in_mtile d) eqn:Hin; [|reflexivity].
      cbn [andb].
      assert (Hne : utile_at odd col d <> i).
      { intros Hat. pose proof (in_mtile_cell d Hin) as (Hfr & Hucc).
        destruct (place_complete odd col _ _ Hcol Hfr Hucc) as (_ & Hpc).
        fold (utile_at odd col d) in Hpc. rewrite Hat, Hpl in Hpc.
        injection Hpc as E1 E2.
        rewrite block_in_mtile, Hin, <- E1, <- E2, !Z.eqb_refl in Hblk
          by assumption.
        discriminate. }
      zcases; try reflexivity; lia.
  - exists u, f. simpl in *. split; [exact Hrun|]. split; [exact Hlu|].
    split; [exact Hlf|]. intros p. rewrite Hget.
    destruct (in_mtile (p - base)) eqn:Hin; [|reflexivity].
    apply in_mtile_cell in Hin as (Hfr & Huc).
    destruct (tbl_secondary odd col _ Hcol Hfr) as (_ & Hur).
    destruct (tbl_primary odd _ _ Hur Huc) as (_ & Hi).
    unfold utile_at, NUM_UTILES_PER_MTILE. zcases; [reflexivity|lia].
Qed.

(** ** The frame loop *)

Lemma for_from_app {St : Type} (a b : nat) (body : Z -> St -> result St) :
  forall (i : Z) (s : St),
    for_from (a + b) i body s
    = do s' <- for_from a i body s; for_from b (i + Z.of_nat a) body s'.
Proof.
  induction a as [|a IH]; intros i s.
  - simpl. f_equal. lia.
  - cbn [for_from Nat.add]. destruct (body i s) as [t|e]; cbn [bind]; [|reflexivity].
    rewrite IH. replace (i + 1 + Z.of_nat a) with (i + Z.of_nat (S a)) by lia.
    reflexivity.
Qed.

Lemma for_from_shift {St : Type} (fuel : nat) (d : Z)
    (body : Z -> St -> result St) :
  forall (i : Z) (s : St),
    for_from fuel (i + d) body s = for_from fuel i (fun k => body (k + d)) s.
Proof.
  induction fuel as [|fuel IH]; intros i s; [reflexivity|].
  cbn [for_from]. destruct (body (i + d) s) as [t|e]; cbn [bind]; [|reflexivity].
  rewrite <- IH. f_equal. lia.
Qed.

(** A loop nest over [n] rows of [m] columns is one loop over the [n * m]
    cells in row-major order. *)
Lemma for_from_nest {St : Type} (m : nat) (body : Z -> Z -> St -> result St)
    (n : nat) :
  (0 < m)%nat ->
  forall (i : Z) (s : St),
    for_from n i (fun r s => for_from m 0 (body r) s) s
    = for_from (n * m) (i * Z.of_nat m)
        (fun k s => body (k / Z.of_nat m) (k mod Z.of_nat m) s) s.
Proof.
  intros Hm. induction n as [|n IH]; intros i s; [reflexivity|].
  cbn [for_from Nat.mul]. rewrite for_from_app.
  assert (Hrow : for_from m (i * Z.of_nat m)
                   (fun k s => body (k / Z.of_nat m) (k mod Z.of_nat m) s) s
                 = for_from m 0 (body i) s).
  { replace (i * Z.of_nat m) with (0 + i * Z.of_nat m) by lia.
    rewrite for_from_shift. apply for_from_ext. intros k t Hk.
    rewrite Z.div_add, Z.mod_add by lia.
    rewrite Z.div_small, Z.mod_small by lia. f_equal. }
  rewrite Hrow. destruct (for_from m 0 (body i) s) as [t|e]; cbn [bind];
    [|reflexivity].
  rewrite IH. f_equal. lia.
Qed.

Lemma for_loop_nest {St : Type} (n m : Z) (body : Z -> Z -> St -> result St)
    (s : St) :
  0 <= n -> 0 < m ->
  for_loop n (fun r s => for_loop m (body r) s) s
  = for_loop (n * m) (fun k s => body (k / m) (k mod m) s) s.
Proof.
  intros Hn Hm. unfold for_loop.
  rewrite (for_from_nest (Z.to_nat m) body (Z.to_nat n)) by lia.
  rewrite Z2Nat.inj_mul, Z2Nat.id by lia. reflexivity.
Qed.

(** Two loops agree when their bodies agree on the states an invariant
    admits, and the invariant is kept. *)
Lemma for_from_ext_inv {St : Type} (I : Z -> St -> Prop)
    (b1 b2 : Z -> St -> result St) (fuel : nat) :
  forall (i : Z) (s : St),
    I i s ->
    (forall k t, i <= k < i + Z.of_nat fuel -> I k t ->
       b1 k t = b2 k t /\ forall t', b1 k t = Ok t' -> I (k + 1) t') ->
    for_from fuel i b1 s = for_from fuel i b2 s.
Proof.
  induction fuel as [|fuel IH]; intros i s Hi Hb; [reflexivity|].
  cbn [for_from]. destruct (Hb i s) as (Heq & Hnext); [lia|assumption|].
  rewrite <- Heq. destruct (b1 i s) as [t|e]; cbn [bind]; [|reflexivity].
  apply IH; [now apply Hnext|]. intros k u Hk. apply Hb. lia.
Qed.

Lemma frame_loops_flat (buf utile frame : list word) :
  frame_loops buf utile frame
  = for_loop (GRID_ROWS * GRID_COLS) (decode_cell buf) (0, utile, frame).
Proof.
  unfold frame_loops. fold GRID_ROWS GRID_COLS.
  rewrite (for_loop_nest GRID_ROWS GRID_COLS
             (fun row col '(cur, utile0, frame0) =>
                let pixrow := row * 64 in
                let pixcol := col * 32 in
                let mtile := pixrow * WIDTH + pixcol in
                do (utile', frame') <-
                  decode_mtile buf cur row col frame0 mtile utile0;
                Ok (cur + NUM_UTILES_PER_MTILE * NUM_WORDS_PER_UTILE, utile', frame')))
    by (vm_compute; intuition discriminate).
  unfold for_loop.
  apply (for_from_ext_inv (fun k st => fst (fst st) = k * 2048)).
  - reflexivity.
  - intros k [[cur u] f] Hk Hcur. simpl in Hcur. subst cur.
    unfold decode_cell. cbv zeta.
    destruct (decode_mtile buf (k * 2048) (k / GRID_COLS) (k mod GRID_COLS) f
                (k / GRID_COLS * 64 * WIDTH + k mod GRID_COLS * 32) u)
      as [[u' f']|e]; cbn [bind].
    + split.
      * f_equal. f_equal. f_equal. unfold NUM_UTILES_PER_MTILE, NUM_WORDS_PER_UTILE. lia.
      * intros t' Ht'. injection Ht' as <-. simpl.
        unfold NUM_UTILES_PER_MTILE, NUM_WORDS_PER_UTILE. lia.
    + split; [reflexivity|discriminate].
Qed.

Lemma mtile_in_frame (k p : Z) :
  0 <= k < GRID_ROWS * GRID_COLS ->
  in_mtile (p - cell_base k) = (0 <=? p) && (cell_of p =? k).
Proof.
  unfold in_mtile, cell_base, cell_of.
  change GRID_ROWS with 12. change GRID_COLS with 40. unfold WIDTH.
  intros Hk. zcases; try reflexivity; divlia.
Qed.

Lemma cell_of_range (p : Z) :
  0 <= p < NUM_WORDS -> 0 <= cell_of p < GRID_ROWS * GRID_COLS.
Proof.
  unfold cell_of, NUM_WORDS.
  change GRID_ROWS with 12. change GRID_COLS with 40. unfold WIDTH, HEIGHT.
  intros Hp. divlia.
Qed.

Lemma cell_bounds (k : Z) :
  0 <= k < GRID_ROWS * GRID_COLS ->
  0 <= k mod GRID_COLS /\ 0 <= cell_base k /\
  cell_base k + 63 * WIDTH + 32 <= NUM_WORDS.
Proof.
  unfold cell_base, NUM_WORDS.
  change GRID_ROWS with 12. change GRID_COLS with 40. unfold WIDTH, HEIGHT.
  intros Hk. divlia.
Qed.

(** On a full-size input and output the frame loop succeeds, and every
    position of the output frame holds the input word [frame_src] names. *)
Lemma frame_loops_spec (buf utile frame : list word) :
  len buf = NUM_WORDS -> len frame = NUM_WORDS -> len utile = 64 ->
  exists cur utile' frame',
    frame_loops buf utile frame = Ok (cur, utile', frame') /\
    len frame' = NUM_WORDS /\
    forall p, 0 <= p < NUM_WORDS -> get frame' p = get buf (frame_src p).
Proof.
  intros Hbuf Hframe Hutile. rewrite frame_loops_flat.
  destruct (for_loop_inv (fun k (st : Z * list Z * list Z) =>
              len (snd (fst st)) = 64 /\ len (snd st) = NUM_WORDS /\
              forall p, get (snd st) p =
                if (0 <=? p) && (cell_of p <? k) then get buf (frame_src p)
                else get frame p)
            (GRID_ROWS * GRID_COLS) (decode_cell buf) (0, utile, frame))
    as ([[cur u] f] & Hrun & Hlu & Hlf & Hget).
  - vm_compute. discriminate.
  - simpl. split; [assumption|]. split; [assumption|].
    intros p. destruct (Z.leb_spec 0 p) as [Hp|Hp]; [|reflexivity].
    destruct (Z.ltb_spec (cell_of p) 0) as [Hc|Hc]; [|reflexivity].
    exfalso. revert Hc. unfold cell_of. change GRID_COLS with 40. unfold WIDTH.
    divlia.
  - intros k [[cur u] f] Hk (Hlu & Hlf & Hget). simpl in Hlu, Hlf, Hget.
    destruct (cell_bounds k Hk) as (Hcol & Hb0 & Hb1).
    destruct (decode_mtile_spec buf (k * 2048) (k / GRID_COLS) (k mod GRID_COLS)
                f (cell_base k) u) as (u' & f' & Hdm & Hlu' & Hlf' & Hgf');
      try assumption; try lia.
    { revert Hk. rewrite Hbuf. unfold NUM_WORDS.
      change GRID_ROWS with 12. change GRID_COLS with 40. unfold WIDTH, HEIGHT. lia. }
    exists ((k + 1) * 2048, u', f'). split.
    { unfold decode_cell. cbv zeta. fold (cell_base k). now rewrite Hdm. }
    simpl. split; [exact Hlu'|]. split; [lia|].
    intros p. rewrite Hgf', (mtile_in_frame k p Hk), Hget.
    destruct (Z.leb_spec 0 p) as [Hp|Hp]; [|reflexivity]. cbn [andb].
    destruct (Z.eqb_spec (cell_of p) k) as [E|E].
    + destruct (Z.ltb_spec (cell_of p) (k + 1)); [|lia].
      unfold frame_src. now rewrite E.
    + zcases; try reflexivity; lia.
  - exists cur, u, f. simpl in *. split; [exact Hrun|]. split; [exact Hlf|].
    intros p Hp. rewrite Hget. pose proof (cell_of_range p Hp).
    zcases; try reflexivity; lia.
Qed.

Lemma len_replicate (n : Z) (v : Z) :
  0 <= n -> len (replicate (Z.to_nat n) v) = n.
Proof. intros Hn. unfold len. rewrite length_replicate. lia. Qed.

Lemma detile_spec (buf : list word) :
  len buf = NUM_WORDS ->
  exists out, detile buf (NUM_WORDS * 4) = Ok out /\ len out = NUM_WORDS /\
    forall p, 0 <= p < NUM_WORDS -> get out p = get buf (frame_src p).
Proof.
  intros Hbuf. unfold detile.
  replace (NUM_WORDS * 4 / 4) with NUM_WORDS by (symmetry; apply Z.div_mul; lia).
  destruct (frame_loops_spec buf (replicate 64%nat 0) (replicate (Z.to_nat NUM_WORDS) 0))
    as (cur & u & f & Hrun & Hlen & Hget).
  - exact Hbuf.
  - apply len_replicate. vm_compute. discriminate.
  - reflexivity.
  - exists f. cbv zeta. rewrite Hrun. cbn [bind].
    split; [reflexivity|]. split; assumption.
Qed.

(** ** The inverse permutations of the tables *)

Lemma inverse_check_all :
  allZ 2 (fun odd => allZ 4 (fun cls => inverse_check odd cls)) = true.
Proof. vm_compute. reflexivity. Qed.

Lemma inv_utile_check_all :
  allZ 64 (fun w =>
    let t := inv_utile w in
    (0 <=? t) && (t <? 64) && (entry utile_decoder (t / 8) (t mod 8) =? w)) &&
  allZ 8 (fun r => allZ 8 (fun c =>
    inv_utile (entry utile_decoder r c) =? r * 8 + c)) = true.
Proof. vm_compute. reflexivity. Qed.

Lemma rem2_range (row : Z) : 0 <= row -> 0 <= Z.rem row 2 < 2.
Proof. intros H. apply Z.rem_bound_pos; lia. Qed.

Lemma inv_placement (row col i : Z) :
  0 <= row -> 0 <= col -> 0 <= i < 32 ->
  let odd := Z.rem row 2 in
  let cell := inv_primary odd i in
  let fr := inv_secondary odd (Z.rem col 4) (fst cell) in
  0 <= fr < 8 /\ 0 <= snd cell < 4 /\
  entry (primary odd) (entry (secondary odd) (Z.rem col 4) fr) (snd cell) = i.
Proof.
  intros Hrow Hcol Hi odd cell fr.
  pose proof (allZ_spec _ _ (allZ_spec _ _ inverse_check_all _ (rem2_range row Hrow))
                _ (rem4_range col Hcol)) as H.
  cbv beta in H. apply andb_prop in H as [H _].
  pose proof (allZ_spec _ _ H i Hi) as Hx. cbv beta zeta in Hx.
  fold odd in Hx. fold cell in Hx. fold fr in Hx.
  repeat match goal with
         | Hb : _ && _ = true |- _ => apply andb_prop in Hb as [? ?]
         end.
  lia.
Qed.

Lemma inv_placement_of (row col fr uc : Z) :
  0 <= row -> 0 <= col -> 0 <= fr < 8 -> 0 <= uc < 4 ->
  let odd := Z.rem row 2 in
  let ur := entry (secondary odd) (Z.rem col 4) fr in
  inv_primary odd (entry (primary odd) ur uc) = (ur, uc) /\
  inv_secondary odd (Z.rem col 4) ur = fr.
Proof.
  intros Hrow Hcol Hfr Huc odd ur.
  pose proof (allZ_spec _ _ (allZ_spec _ _ inverse_check_all _ (rem2_range row Hrow))
                _ (rem4_range col Hcol)) as H.
  cbv beta in H. apply andb_prop in H as [_ H].
  pose proof (allZ_spec _ _ (allZ_spec _ _ H fr Hfr) uc Huc) as Hx.
  cbv beta zeta in Hx. fold odd in Hx. fold ur in Hx.
  repeat match goal with
         | Hb : _ && _ = true |- _ => apply andb_prop in Hb as [? ?]
         end.
  destruct (inv_primary odd (entry (primary odd) ur uc)) as [a b].
  simpl in *. split; [f_equal|]; lia.
Qed.

Lemma inv_utile_entry (w : Z) :
  0 <= w < 64 ->
  0 <= inv_utile w < 64 /\
  entry utile_decoder (inv_utile w / 8) (inv_utile w mod 8) = w.
Proof.
  intros Hw. pose proof inv_utile_check_all as H. apply andb_prop in H as [H _].
  pose proof (allZ_spec _ _ H w Hw) as Hx. cbv beta zeta in Hx.
  repeat match goal with
         | Hb : _ && _ = true |- _ => apply andb_prop in Hb as [? ?]
         end.
  lia.
Qed.

Lemma inv_utile_of (r c : Z) :
  0 <= r < 8 -> 0 <= c < 8 -> inv_utile (entry utile_decoder r c) = r * 8 + c.
Proof.
  intros Hr Hc. pose proof inv_utile_check_all as H. apply andb_prop in H as [_ H].
  pose proof (allZ_spec _ _ (allZ_spec _ _ H r Hr) c Hc) as Hx. cbv beta in Hx. lia.
Qed.

(** ** Positions and their coordinates *)

Lemma grid_cell (row col : Z) :
  0 <= col < GRID_COLS ->
  (row * GRID_COLS + col) / GRID_COLS = row /\
  (row * GRID_COLS + col) mod GRID_COLS = col.
Proof. change GRID_COLS with 40. intros Hcol. divlia. Qed.

Lemma raster_coords (row col fr uc r c : Z) :
  0 <= row < GRID_ROWS -> 0 <= col < GRID_COLS ->
  0 <= fr < 8 -> 0 <= uc < 4 -> 0 <= r < 8 -> 0 <= c < 8 ->
  let p := (row * 64 + fr * 8 + r) * WIDTH + col * 32 + uc * 8 + c in
  let d := p - cell_base (row * GRID_COLS + col) in
  (0 <= p < NUM_WORDS /\ cell_of p = row * GRID_COLS + col) /\
  (d / WIDTH / 8 = fr /\ d mod WIDTH / 8 = uc) /\
  (d / WIDTH mod 8 = r /\ d mod WIDTH mod 8 = c).
Proof.
  intros Hrow Hcol Hfr Huc Hr Hc p d.
  assert (Hd : d = (fr * 8 + r) * WIDTH + (uc * 8 + c)).
  { subst d p. unfold cell_base.
    destruct (grid_cell row col Hcol) as [-> ->]. lia. }
  assert (Hp : p = (row * 64 + fr * 8 + r) * WIDTH + (col * 32 + uc * 8 + c))
    by (subst p; lia).
  clearbody p d. subst p d. unfold cell_of, NUM_WORDS.
  revert Hrow Hcol. change GRID_ROWS with 12. change GRID_COLS with 40.
  unfold WIDTH, HEIGHT. intros Hrow Hcol.
  repeat split; divlia.
Qed.

Lemma raster_coords_of (p : Z) :
  0 <= p < NUM_WORDS ->
  let k := cell_of p in
  let d := p - cell_base k in
  (0 <= k / GRID_COLS < GRID_ROWS /\ 0 <= k mod GRID_COLS < GRID_COLS) /\
  (0 <= d / WIDTH / 8 < 8 /\ 0 <= d mod WIDTH / 8 < 4) /\
  (0 <= d / WIDTH mod 8 < 8 /\ 0 <= d mod WIDTH mod 8 < 8) /\
  k = k / GRID_COLS * GRID_COLS + k mod GRID_COLS /\
  p = (k / GRID_COLS * 64 + d / WIDTH / 8 * 8 + d / WIDTH mod 8) * WIDTH
      + k mod GRID_COLS * 32 + d mod WIDTH / 8 * 8 + d mod WIDTH mod 8.
Proof.
  intros Hp k d.
  pose proof (cell_of_range p Hp) as Hk. fold k in Hk.
  pose proof (mtile_in_frame k p Hk) as Hin. fold d in Hin.
  destruct (Z.leb_spec 0 p); [|lia]. fold k in Hin. rewrite Z.eqb_refl in Hin.
  simpl in Hin. unfold in_mtile in Hin.
  repeat match goal with
         | Hb : _ && _ = true |- _ => apply andb_prop in Hb as [? ?]
         end.
  assert (Hbase : cell_base k = k / GRID_COLS * 64 * WIDTH + k mod GRID_COLS * 32)
    by reflexivity.
  assert (Hd : p = cell_base k + d) by (subst d; lia).
  clearbody d k. rewrite Hd, Hbase. clear Hd Hbase Hp.
  revert Hk. change GRID_ROWS with 12. change GRID_COLS with 40.
  unfold WIDTH in *. intros Hk.
  repeat split; divlia.
Qed.

Lemma tiled_coords (k i w : Z) :
  0 <= i < 32 -> 0 <= w < 64 ->
  let q := k * 2048 + i * 64 + w in
  q / 2048 = k /\ q mod 2048 / 64 = i /\ q mod 64 = w.
Proof. intros Hi Hw q. subst q. repeat split; divlia. Qed.

Lemma tiled_coords_of (q : Z) :
  0 <= q < NUM_WORDS ->
  0 <= q / 2048 < GRID_ROWS * GRID_COLS /\
  0 <= q mod 2048 / 64 < 32 /\ 0 <= q mod 64 < 64 /\
  q = q / 2048 * 2048 + q mod 2048 / 64 * 64 + q mod 64.
Proof.
  unfold NUM_WORDS. change GRID_ROWS with 12. change GRID_COLS with 40.
  unfold WIDTH, HEIGHT. intros Hq. repeat split; divlia.
Qed.

Lemma grid_cell_of (k : Z) :
  0 <= k < GRID_ROWS * GRID_COLS ->
  0 <= k / GRID_COLS < GRID_ROWS /\ 0 <= k mod GRID_COLS < GRID_COLS /\
  k = k / GRID_COLS * GRID_COLS + k mod GRID_COLS.
Proof.
  change GRID_ROWS with 12. change GRID_COLS with 40. intros Hk.
  repeat split; divlia.
Qed.

(** [frame_dst] and [frame_src] are inverse bijections of the word
    positions of a frame. *)
Lemma frame_src_dst (q : Z) :
  0 <= q < NUM_WORDS ->
  0 <= frame_dst q < NUM_WORDS /\ frame_src (frame_dst q) = q.
Proof.
  intros Hq. destruct (tiled_coords_of q Hq) as (Hk & Hi & Hw & Eq).
  destruct (grid_cell_of _ Hk) as (Hrow & Hcol & Ek).
  unfold frame_dst. cbv zeta.
  set (k := q / 2048) in *. set (row := k / GRID_COLS) in *.
  set (col := k mod GRID_COLS) in *. set (i := q mod 2048 / 64) in *.
  set (w := q mod 64) in *.
  destruct (inv_placement row col i) as (Hfr & Huc & HP); [lia..|].
  destruct (inv_utile_entry w Hw) as (Ht & Hu).
  set (cell := inv_primary (Z.rem row 2) i) in *.
  set (fr := inv_secondary (Z.rem row 2) (Z.rem col 4) (fst cell)) in *.
  set (t := inv_utile w) in *.
  assert (Htd : 0 <= t / 8 < 8 /\ 0 <= t mod 8 < 8) by divlia.
  destruct (raster_coords row col fr (snd cell) (t / 8) (t mod 8))
    as ((Hp & Hcell) & (E1 & E2) & (E3 & E4)); try lia.
  split; [exact Hp|].
  unfold frame_src. cbv zeta. rewrite Hcell, <- Ek.
  fold row. fold col.
  unfold mtile_src, utile_at. rewrite Ek at 2 3 4 5.
  rewrite E1, E2, E3, E4, HP, Hu. lia.
Qed.

Lemma frame_dst_src (p : Z) :
  0 <= p < NUM_WORDS ->
  0 <= frame_src p < NUM_WORDS /\ frame_dst (frame_src p) = p.
Proof.
  intros Hp.
  destruct (raster_coords_of p Hp)
    as ((Hrow & Hcol) & (Hfr & Huc) & (Hr & Hc) & Ek & Ep).
  pose proof (cell_of_range p Hp) as Hk.
  unfold frame_src, mtile_src, utile_at. cbv zeta.
  set (k := cell_of p) in *. set (d := p - cell_base k) in *.
  set (row := k / GRID_COLS) in *. set (col := k mod GRID_COLS) in *.
  set (fr := d / WIDTH / 8) in *. set (uc := d mod WIDTH / 8) in *.
  set (r := d / WIDTH mod 8) in *. set (c := d mod WIDTH mod 8) in *.
  destruct (tbl_secondary (Z.rem row 2) col fr) as (_ & Hur); [lia..|].
  destruct (tbl_primary (Z.rem row 2) _ uc Hur Huc) as (_ & Hi).
  destruct (tbl_utile r c Hr Hc) as (_ & Hw).
  destruct (inv_placement_of row col fr uc) as (HiP & HiS); [lia..|].
  pose proof (inv_utile_of r c Hr Hc) as HiU.
  set (ur := entry (secondary (Z.rem row 2)) (Z.rem col 4) fr) in *.
  set (i := entry (primary (Z.rem row 2)) ur uc) in *.
  set (w := entry utile_decoder r c) in *.
  destruct (tiled_coords k i w Hi Hw) as (Q1 & Q2 & Q3).
  replace (k * 2048 + (i * 64 + w)) with (k * 2048 + i * 64 + w) by lia.
  split.
  - revert Hk. unfold NUM_WORDS. change GRID_ROWS with 12. change GRID_COLS with 40.
    unfold WIDTH, HEIGHT. lia.
  - unfold frame_dst. cbv zeta. rewrite Q1, Q2, Q3. fold row. fold col.
    rewrite HiP. cbn [fst snd]. rewrite HiS, HiU.
    replace ((r * 8 + c) / 8) with r by divlia.
    replace ((r * 8 + c) mod 8) with c by divlia.
    lia.
Qed.

(** ** The whole-frame transform *)

Lemma get_seqZ (n q : Z) : 0 <= q < n -> get (seqZ 0 n) q = Some q.
Proof.
  intros Hq. unfold get. destruct (Z.leb_spec 0 q); [|lia].
  rewrite lookup_seqZ_lt by lia. f_equal. lia.
Qed.

Lemma len_seqZ (n : Z) : 0 <= n -> len (seqZ 0 n) = n.
Proof. intros Hn. unfold len. rewrite length_seqZ. lia. Qed.

Lemma NUM_WORDS_pos : 0 <= NUM_WORDS.
Proof. vm_compute. discriminate. Qed.

Lemma get_inverse_transform (raster : list word) (q : Z) :
  get (inverse_transform raster) q =
  if (0 <=? q) && (q <? NUM_WORDS)
  then Some (default 0 (get raster (frame_dst q))) else None.
Proof.
  unfold inverse_transform, get at 1.
  destruct (Z.leb_spec 0 q) as [Hq|Hq]; [|reflexivity]. cbn [andb].
  rewrite list_lookup_fmap.
  destruct (Z.ltb_spec q NUM_WORDS) as [Hlt|Hge].
  - rewrite lookup_seqZ_lt by lia.
    replace (0 + Z.of_nat (Z.to_nat q)) with q by lia. reflexivity.
  - rewrite lookup_seqZ_ge by lia. reflexivity.
Qed.

(** C2: on a correctly sized 1280x768 input the transform is a bijection
    on word positions.  Fed the markers [0, 1, 2, ...] (every word equal
    to its own index) it succeeds, every index is at exactly one position
    of the output and every position of the output holds an index; and for
    arbitrary word content the inverse transform applied to the output
    gives back the input. *)
Theorem detile_is_bijection (buf : list word) :
  len buf = WIDTH * HEIGHT ->
  (exists marked,
     detile (seqZ 0 (WIDTH * HEIGHT)) (WIDTH * HEIGHT * 4) = Ok marked /\
     len marked = WIDTH * HEIGHT /\
     (forall q, 0 <= q < WIDTH * HEIGHT ->
        exists p, get marked p = Some q /\
                  forall p', get marked p' = Some q -> p' = p) /\
     (forall p, 0 <= p < WIDTH * HEIGHT ->
        exists q, 0 <= q < WIDTH * HEIGHT /\ get marked p = Some q)) /\
  (exists out,
     detile buf (WIDTH * HEIGHT * 4) = Ok out /\
     len out = len buf /\
     inverse_transform out = buf).
Proof.
  fold NUM_WORDS. intros Hbuf. split.
  - destruct (detile_spec (seqZ 0 NUM_WORDS) (len_seqZ _ NUM_WORDS_pos))
      as (marked & Hrun & Hlen & Hget).
    exists marked. split; [exact Hrun|]. split; [exact Hlen|]. split.
    + intros q Hq. destruct (frame_src_dst q Hq) as (Hp & Hsrc).
      exists (frame_dst q). split.
      * rewrite (Hget _ Hp), Hsrc. apply get_seqZ. exact Hq.
      * intros p' Hp'.
        assert (Hr : 0 <= p' < NUM_WORDS)
          by (rewrite <- Hlen; apply get_Some_iff; eauto).
        destruct (frame_dst_src p' Hr) as (Hs & Hdst).
        rewrite (Hget _ Hr), (get_seqZ _ _ Hs) in Hp'.
        injection Hp' as <-. symmetry. exact Hdst.
    + intros p Hp. destruct (frame_dst_src p Hp) as (Hs & _).
      exists (frame_src p). split; [exact Hs|].
      rewrite (Hget _ Hp). apply get_seqZ. exact Hs.
  - destruct (detile_spec buf Hbuf) as (out & Hrun & Hlen & Hget).
    exists out. split; [exact Hrun|]. split; [lia|].
    apply get_ext. intros q. rewrite get_inverse_transform.
    destruct (Z.leb_spec 0 q) as [Hq|Hq]; cbn [andb];
      [destruct (Z.ltb_spec q NUM_WORDS) as [Hlt|Hge]|].
    + destruct (frame_src_dst q (conj Hq Hlt)) as (Hp & Hsrc).
      rewrite (Hget _ Hp), Hsrc.
      destruct (proj2 (get_Some_iff buf q)) as (v & Hv); [lia|].
      rewrite Hv. reflexivity.
    + symmetry. apply get_None_iff. lia.
    + symmetry. apply get_None_iff. lia.
Qed.

Lemma detile_is_bijection_witness :
  (exists marked,
     detile (seqZ 0 (WIDTH * HEIGHT)) (WIDTH * HEIGHT * 4) = Ok marked /\
     len marked = WIDTH * HEIGHT /\
     (forall q, 0 <= q < WIDTH * HEIGHT ->
        exists p, get marked p = Some q /\
                  forall p', get marked p' = Some q -> p' = p) /\
     (forall p, 0 <= p < WIDTH * HEIGHT ->
        exists q, 0 <= q < WIDTH * HEIGHT /\ get marked p = Some q)) /\
  (exists out,
     detile (seqZ 5 (WIDTH * HEIGHT)) (WIDTH * HEIGHT * 4) = Ok out /\
     len out = len (seqZ 5 (WIDTH * HEIGHT)) /\
     inverse_transform out = seqZ 5 (WIDTH * HEIGHT)).
Proof.
  apply (detile_is_bijection (seqZ 5 (WIDTH * HEIGHT))).
  unfold len. rewrite length_seqZ. apply Z2Nat.id. apply NUM_WORDS_pos.
Defined.

(** ** Where decode_mtile puts the decoded blocks *)

(** The decoder tests [row % 2] against zero only, so C's remainder and
    the mathematical [mod] select the same tables, also for a negative
    [row]. *)
Lemma primary_mod (row : Z) : primary (Z.rem row 2) = primary (row mod 2).
Proof. unfold primary. zcases; try reflexivity; divlia. Qed.

Lemma secondary_mod (row : Z) : secondary (Z.rem row 2) = secondary (row mod 2).
Proof. unfold secondary. zcases; try reflexivity; divlia. Qed.

Lemma rem4_mod (col : Z) : 0 <= col -> Z.rem col 4 = col mod 4.
Proof. intros H. apply Z.rem_mod_nonneg; lia. Qed.

Lemma utile_coords (fr uc r c : Z) :
  0 <= fr < 8 -> 0 <= uc < 4 -> 0 <= r < 8 -> 0 <= c < 8 ->
  let d := fr * 8 * WIDTH + uc * 8 + r * WIDTH + c in
  in_mtile d = true /\
  (d / WIDTH / 8 = fr /\ d mod WIDTH / 8 = uc) /\
  (d / WIDTH mod 8 = r /\ d mod WIDTH mod 8 = c).
Proof.
  intros Hfr Huc Hr Hc d.
  assert (Hd : d = (fr * 8 + r) * WIDTH + (uc * 8 + c)) by (subst d; lia).
  clearbody d. subst d. unfold in_mtile, WIDTH.
  split; [|repeat split; divlia].
  zcases; try reflexivity; divlia.
Qed.

(** C1: in every macro-tile decode, with [P] and [S] the primary and
    secondary tables selected by [row mod 2], every storage index [i] of
    [0, 32) is handled as follows: the coarse cell [(ur, uc)] the search
    stops at is the unique pair with [P[ur][uc] = i]; the final row [j] is
    the unique position with [S[col mod 4][j] = ur]; and the decoded 8x8
    block of utile [i] ends up at word offset [j * 8 * WIDTH + uc * 8] from
    the macro tile's top-left word [base], its row [r] a further
    [r * WIDTH] words on (the frame width is the constant [WIDTH]). *)
Theorem decode_mtile_places_utiles (buf : list word) (cur row col : Z)
    (frame : list word) (base : Z) (utile scratch : list word) :
  0 <= col ->
  0 <= cur -> cur + 2048 <= len buf ->
  0 <= base -> base + 63 * WIDTH + 32 <= len frame ->
  len utile = 64 -> len scratch = 64 ->
  exists utile' frame',
    decode_mtile buf cur row col frame base utile = Ok (utile', frame') /\
    forall i, 0 <= i < 32 ->
      exists ur uc j block,
        (locate (Z.rem row 2) i = Ok (ur, uc) /\
         tbl (primary (row mod 2)) ur uc = Ok i /\
         forall ur' uc', 0 <= ur' < 8 -> 0 <= uc' < 4 ->
           tbl (primary (row mod 2)) ur' uc' = Ok i -> ur' = ur /\ uc' = uc) /\
        (refine (Z.rem row 2) col ur = Ok j /\
         tbl (secondary (row mod 2)) (col mod 4) j = Ok ur /\
         forall j', 0 <= j' < 8 ->
           tbl (secondary (row mod 2)) (col mod 4) j' = Ok ur -> j' = j) /\
        decode_utile buf (cur + i * 64) scratch = Ok block /\
        forall r c, 0 <= r < 8 -> 0 <= c < 8 ->
          exists v, get block (r * 8 + c) = Some v /\
            get frame' (base + (j * 8 * WIDTH + uc * 8) + r * WIDTH + c) = Some v.
Proof.
  intros Hcol Hcur Hbuf Hbase Hframe Hutile Hscratch.
  destruct (decode_mtile_spec buf cur row col frame base utile)
    as (u' & f' & Hrun & _ & _ & Hget); try assumption.
  exists u', f'. split; [exact Hrun|]. intros i Hi.
  destruct (placement (Z.rem row 2) col i Hcol Hi)
    as (ur & uc & j & Hloc & (Hur & Huc) & HP & HPu & Href & Hj & HS & HSu & _).
  destruct (decode_utile_spec buf (cur + i * 64) scratch)
    as (block & Hblock & Hlb & Hgb); [lia..|].
  rewrite primary_mod in HP, HPu. rewrite secondary_mod, rem4_mod in HS, HSu by lia.
  exists ur, uc, j, block. split; [|split; [|split; [exact Hblock|]]].
  - split; [exact Hloc|]. split.
    + rewrite <- primary_mod.
      destruct (tbl_primary (Z.rem row 2) ur uc Hur Huc) as (-> & _).
      rewrite primary_mod. now rewrite HP.
    + intros ur' uc' Hur' Huc' Heq. apply HPu; try assumption.
      unfold entry. now rewrite Heq.
  - split; [exact Href|]. split.
    + rewrite <- secondary_mod, <- rem4_mod by lia.
      destruct (tbl_secondary (Z.rem row 2) col j Hcol Hj) as (-> & _).
      rewrite secondary_mod, rem4_mod by lia. now rewrite HS.
    + intros j' Hj' Heq. apply HSu; [assumption|].
      unfold entry. now rewrite Heq.
  - intros r c Hr Hc.
    destruct (tbl_utile r c Hr Hc) as (_ & Hix).
    destruct (proj2 (get_Some_iff buf (cur + i * 64 + entry utile_decoder r c)))
      as (v & Hv); [lia|].
    exists v. split; [now rewrite Hgb|].
    rewrite Hget.
    replace (base + (j * 8 * WIDTH + uc * 8) + r * WIDTH + c - base)
      with (j * 8 * WIDTH + uc * 8 + r * WIDTH + c) by lia.
    destruct (utile_coords j uc r c Hj Huc Hr Hc) as (-> & (E1 & E2) & (E3 & E4)).
    unfold mtile_src, utile_at. rewrite E1, E2, E3, E4.
    rewrite <- (rem4_mod col) in HS by lia.
    rewrite <- secondary_mod in HS. rewrite HS.
    rewrite <- primary_mod in HP. rewrite HP.
    rewrite <- Hv. f_equal. lia.
Qed.

Lemma decode_mtile_places_utiles_witness :
  exists utile' frame',
    decode_mtile (seqZ 0 2048) 0 1 2 (replicate (Z.to_nat (64 * WIDTH)) 0) 0
      (replicate 64%nat 0) = Ok (utile', frame') /\
    forall i, 0 <= i < 32 ->
      exists ur uc j block,
        (locate (Z.rem 1 2) i = Ok (ur, uc) /\
         tbl (primary (1 mod 2)) ur uc = Ok i /\
         forall ur' uc', 0 <= ur' < 8 -> 0 <= uc' < 4 ->
           tbl (primary (1 mod 2)) ur' uc' = Ok i -> ur' = ur /\ uc' = uc) /\
        (refine (Z.rem 1 2) 2 ur = Ok j /\
         tbl (secondary (1 mod 2)) (2 mod 4) j = Ok ur /\
         forall j', 0 <= j' < 8 ->
           tbl (secondary (1 mod 2)) (2 mod 4) j' = Ok ur -> j' = j) /\
        decode_utile (seqZ 0 2048) (0 + i * 64) (replicate 64%nat 9) = Ok block /\
        forall r c, 0 <= r < 8 -> 0 <= c < 8 ->
          exists v, get block (r * 8 + c) = Some v /\
            get frame' (0 + (j * 8 * WIDTH + uc * 8) + r * WIDTH + c) = Some v.
Proof.
  apply (decode_mtile_places_utiles (seqZ 0 2048) 0 1 2
           (replicate (Z.to_nat (64 * WIDTH)) 0) 0
           (replicate 64%nat 0) (replicate 64%nat 9)).
  - lia.
  - lia.
  - rewrite len_seqZ; lia.
  - lia.
  - rewrite len_replicate; unfold WIDTH; lia.
  - reflexivity.
  - reflexivity.
Defined.


(** ** The placement is a bijection *)

(** The stores of a decode are recorded by [decode_mtile_log]; the lemmas
    below show that the record changes nothing of what [decode_mtile]
    computes, and say which stores it holds. *)

(** A loop that keeps a log beside its state: when each iteration extends
    the log by a chunk that only depends on the counter, the loop returns
    what the loop without the log returns, and the chunks in order. *)
Lemma for_from_log {St L : Type} (I : Z -> St -> Prop)
    (body : Z -> St -> result St)
    (body_log : Z -> St * list L -> result (St * list L))
    (chunk : Z -> list L) (fuel : nat) :
  forall (i : Z) (s : St) (l : list L),
    I i s ->
    (forall k t l', i <= k < i + Z.of_nat fuel -> I k t ->
       body_log k (t, l') = do t' <- body k t; Ok (t', l' ++ chunk k)) ->
    (forall k t t', i <= k < i + Z.of_nat fuel -> I k t -> body k t = Ok t' ->
       I (k + 1) t') ->
    for_from fuel i body_log (s, l)
    = do s' <- for_from fuel i body s;
      Ok (s', l ++ concat (chunk <$> seqZ i (Z.of_nat fuel))).
Proof.
  induction fuel as [|fuel IH]; intros i s l Hi Hlog Hstep.
  - simpl. now rewrite app_nil_r.
  - cbn [for_from]. rewrite Hlog by (lia || assumption).
    destruct (body i s) as [t|e] eqn:Hb; cbn [bind]; [|reflexivity].
    rewrite IH.
    + destruct (for_from fuel (i + 1) body t) as [s'|e]; cbn [bind]; [|reflexivity].
      rewrite (seqZ_cons i (Z.of_nat (S fuel))) by lia.
      rewrite fmap_cons. cbn [concat]. rewrite <- app_assoc.
      replace (Z.pred (Z.of_nat (S fuel))) with (Z.of_nat fuel) by lia.
      reflexivity.
    + apply (Hstep i s t); [lia|assumption|assumption].
    + intros k u l' Hk. apply Hlog. lia.
    + intros k u u' Hk. apply Hstep. lia.
Qed.

Lemma for_loop_log {St L : Type} (I : Z -> St -> Prop) (n : Z)
    (body : Z -> St -> result St)
    (body_log : Z -> St * list L -> result (St * list L))
    (chunk : Z -> list L) (s : St) (l : list L) :
  0 <= n ->
  I 0 s ->
  (forall k t l', 0 <= k < n -> I k t ->
     body_log k (t, l') = do t' <- body k t; Ok (t', l' ++ chunk k)) ->
  (forall k t t', 0 <= k < n -> I k t -> body k t = Ok t' -> I (k + 1) t') ->
  for_loop n body_log (s, l)
  = do s' <- for_loop n body s; Ok (s', l ++ concat (chunk <$> seqZ 0 n)).
Proof.
  intros Hn H0 Hlog Hstep. unfold for_loop.
  rewrite (for_from_log I body body_log chunk) by
    (assumption || (intros; (apply Hlog || eapply Hstep); (lia || eassumption))).
  now rewrite Z2Nat.id by lia.
Qed.

(** Chunks of equal length laid end to end are one table. *)
Lemma concat_chunks {L : Type} (f : Z -> Z -> L) (m : Z) (n : nat) :
  0 < m ->
  concat ((fun r => f r <$> seqZ 0 m) <$> seqZ 0 (Z.of_nat n))
  = (fun k => f (k / m) (k mod m)) <$> seqZ 0 (Z.of_nat n * m).
Proof.
  intros Hm. induction n as [|n IH]; [reflexivity|].
  rewrite seqZ_S, fmap_app, concat_app, IH. cbn [fmap list_fmap concat].
  rewrite app_nil_r.
  replace (Z.of_nat (S n) * m) with (Z.of_nat n * m + m) by lia.
  rewrite seqZ_app, fmap_app by lia. f_equal.
  replace (0 + Z.of_nat n * m) with (Z.of_nat n * m + 0) by lia.
  rewrite <- (fmap_add_seqZ (Z.of_nat n * m) 0 m), <- list_fmap_compose.
  apply list_fmap_ext. intros j x Hx. apply lookup_seqZ in Hx as (-> & Hj).
  unfold compose. replace (Z.of_nat n * m + (0 + Z.of_nat j)) with
    (Z.of_nat j + Z.of_nat n * m) by lia.
  rewrite Z.div_add, Z.mod_add by lia.
  rewrite Z.div_small, Z.mod_small by lia.
  do 2 f_equal; lia.
Qed.

Lemma memcpy_log_stores (dst : list word) (d : Z) (src : list word) (s : Z)
    (log : list Z) :
  memcpy_log dst d src s 32 log
  = do dst' <- memcpy dst d src s 32; Ok (dst', log ++ (Z.add d <$> seqZ 0 8)).
Proof.
  unfold memcpy_log, memcpy. change (32 / 4) with 8.
  rewrite (for_loop_log (fun _ _ => True) 8
             (fun k dst0 => do v <- load src (s + k); store dst0 (d + k) v)
             _ (fun k => [d + k])); try easy.
  - intros k t l' _ _. destruct (load src (s + k)) as [v|e]; cbn [bind]; [|reflexivity].
    now destruct (store t (d + k) v).
Qed.

Lemma copy_rows_log_stores (utile : list word) (pixrow : Z) (frame : list word)
    (base : Z) (log : list Z) :
  copy_rows_log utile pixrow frame base log
  = do (pr, frame') <- copy_rows utile pixrow frame base;
    Ok (pr, frame', log ++ block_stores (base + pixrow)).
Proof.
  unfold copy_rows_log, copy_rows.
  rewrite (for_loop_log (fun r (st : Z * list Z) => fst st = pixrow + r * WIDTH) 8
             (fun r '(pixrow0, frame0) =>
                do frame' <- memcpy frame0 (base + pixrow0) utile (r * 8) 32;
                Ok (pixrow0 + WIDTH, frame'))
             _ (fun r => Z.add (base + pixrow + r * WIDTH) <$> seqZ 0 8)).
  - destruct (for_loop 8 _ (pixrow, frame)) as [[pr f]|e]; cbn [bind]; [|reflexivity].
    unfold block_stores. change (8 * 8) with (Z.of_nat 8 * 8).
    rewrite <- (concat_chunks (fun r c => base + pixrow + r * WIDTH + c) 8 8) by lia.
    reflexivity.
  - lia.
  - simpl. lia.
  - intros r [pr f] l' _ Hpr. simpl in Hpr. subst pr.
    replace (base + (pixrow + r * WIDTH)) with (base + pixrow + r * WIDTH) by lia.
    rewrite memcpy_log_stores.
    now destruct (memcpy f _ utile (r * 8) 32).
  - intros r [pr f] [pr' f'] _ Hpr Hb. simpl in Hpr. subst pr.
    apply bind_Ok in Hb as (g & _ & Hb). injection Hb as <- _. simpl. lia.
Qed.

(** [decode_mtile_log] returns what [decode_mtile] returns, and the log of
    its stores is [mtile_stores]. *)
Lemma decode_mtile_log_stores (buf : list word) (cur row col : Z)
    (frame : list word) (base : Z) (utile : list word) :
  decode_mtile_log buf cur row col frame base utile
  = do (utile', frame') <- decode_mtile buf cur row col frame base utile;
    Ok (utile', frame', mtile_stores (Z.rem row 2) col base).
Proof.
  unfold decode_mtile_log, decode_mtile. set (odd := Z.rem row 2). cbv zeta.
  unfold NUM_UTILES_PER_MTILE, NUM_WORDS_PER_UTILE.
  change (4 * 8) with 32. change (8 * 8) with 64.
  rewrite (for_loop_log (fun _ _ => True) 32
             (fun i '(utile0, frame0) =>
                do utile' <- decode_utile buf (cur + i * 64) utile0;
                do (ur, uc) <- place odd col i;
                do (_, frame') <-
                  copy_rows utile' (ur * 8 * WIDTH + uc * 8) frame0 base;
                Ok (utile', frame'))
             _ (fun i => (fun n => (i, base + cell_offset odd col i
                                       + n / 8 * WIDTH + n mod 8))
                         <$> seqZ 0 64)); try easy.
  - destruct (for_loop 32 _ (utile, frame)) as [[u f]|e]; cbn [bind]; [|reflexivity].
    unfold mtile_stores. change (32 * 64) with (Z.of_nat 32 * 64).
    rewrite <- (concat_chunks
                  (fun i n => (i, base + cell_offset odd col i
                                  + n / 8 * WIDTH + n mod 8)) 64 32) by lia.
    reflexivity.
  - intros i [u f] l' _ _.
    destruct (decode_utile buf (cur + i * 64) u) as [u'|e]; cbn [bind]; [|reflexivity].
    unfold cell_offset.
    destruct (place odd col i) as [[ur uc]|e]; cbn [bind]; [|reflexivity].
    rewrite copy_rows_log_stores.
    destruct (copy_rows u' (ur * 8 * WIDTH + uc * 8) f base) as [[pr f']|e];
      cbn [bind]; [|reflexivity].
    rewrite app_nil_l. unfold block_stores. rewrite <- list_fmap_compose.
    reflexivity.
Qed.

Lemma place_in_range (odd col i : Z) :
  0 <= col -> 0 <= i < 32 ->
  exists fr uc, place odd col i = Ok (fr, uc) /\
    (0 <= fr < 8 /\ 0 <= uc < 4) /\
    entry (primary odd) (entry (secondary odd) (Z.rem col 4) fr) uc = i.
Proof.
  intros Hcol Hi.
  destruct (placement odd col i Hcol Hi)
    as (ur & uc & j & _ & (_ & Huc) & HP & _ & _ & Hj & HS & _ & Hpl).
  exists j, uc. split; [exact Hpl|]. split; [lia|]. now rewrite HS.
Qed.

Lemma place_injective (odd col i i' : Z) :
  0 <= col -> 0 <= i < 32 -> 0 <= i' < 32 ->
  place odd col i = place odd col i' -> i = i'.
Proof.
  intros Hcol Hi Hi' Heq.
  destruct (place_in_range odd col i Hcol Hi) as (fr & uc & Hpl & _ & E).
  destruct (place_in_range odd col i' Hcol Hi') as (fr' & uc' & Hpl' & _ & E').
  rewrite Hpl, Hpl' in Heq. injection Heq as -> ->. congruence.
Qed.

(** The [n]-th store of a macro-tile decode: it belongs to utile [n / 64]
    and goes to row [n mod 64 / 8], column [n mod 8] of that utile's cell. *)
Lemma mtile_store_at (odd col base i p : Z) :
  0 <= col ->
  (i, p) ∈ mtile_stores odd col base <->
  0 <= i < 32 /\
  exists fr uc r c,
    place odd col i = Ok (fr, uc) /\ (0 <= fr < 8 /\ 0 <= uc < 4) /\
    (0 <= r < 8 /\ 0 <= c < 8) /\
    p = base + (fr * 8 * WIDTH + uc * 8) + r * WIDTH + c.
Proof.
  intros Hcol. unfold mtile_stores. rewrite list_elem_of_fmap. split.
  - intros (n & Heq & Hn). apply elem_of_seqZ in Hn. injection Heq as -> ->.
    assert (Hi : 0 <= n / 64 < 32) by divlia. split; [exact Hi|].
    destruct (place_in_range odd col _ Hcol Hi) as (fr & uc & Hpl & Hcell & _).
    exists fr, uc, (n mod 64 / 8), (n mod 64 mod 8).
    split; [exact Hpl|]. split; [exact Hcell|]. split; [divlia|].
    unfold cell_offset. now rewrite Hpl.
  - intros (Hi & fr & uc & r & c & Hpl & Hcell & (Hr & Hc) & ->).
    exists (i * 64 + r * 8 + c). split.
    + replace ((i * 64 + r * 8 + c) / 64) with i by divlia.
      replace ((i * 64 + r * 8 + c) mod 64 / 8) with r by divlia.
      replace ((i * 64 + r * 8 + c) mod 64 mod 8) with c by divlia.
      unfold cell_offset. now rewrite Hpl.
    + apply elem_of_seqZ. lia.
Qed.

Lemma mtile_stores_distinct (odd col base : Z) :
  0 <= col -> NoDup (snd <$> mtile_stores odd col base).
Proof.
  intros Hcol. unfold mtile_stores. rewrite <- list_fmap_compose.
  apply NoDup_fmap_2_strong; [|apply NoDup_seqZ].
  intros n n' Hn Hn' Heq. apply elem_of_seqZ in Hn, Hn'. unfold compose in Heq.
  cbn [snd] in Heq.
  assert (Hi : 0 <= n / 64 < 32) by divlia.
  assert (Hi' : 0 <= n' / 64 < 32) by divlia.
  destruct (place_in_range odd col _ Hcol Hi) as (fr & uc & Hpl & (Hfr & Huc) & _).
  destruct (place_in_range odd col _ Hcol Hi') as (fr' & uc' & Hpl' & (Hfr' & Huc') & _).
  unfold cell_offset in Heq. rewrite Hpl, Hpl' in Heq.
  assert (Hr : 0 <= n mod 64 / 8 < 8 /\ 0 <= n mod 64 mod 8 < 8) by divlia.
  assert (Hr' : 0 <= n' mod 64 / 8 < 8 /\ 0 <= n' mod 64 mod 8 < 8) by divlia.
  destruct (utile_coords fr uc _ _ Hfr Huc (proj1 Hr) (proj2 Hr))
    as (_ & (E1 & E2) & (E3 & E4)).
  destruct (utile_coords fr' uc' _ _ Hfr' Huc' (proj1 Hr') (proj2 Hr'))
    as (_ & (E1' & E2') & (E3' & E4')).
  assert (Hd : fr * 8 * WIDTH + uc * 8 + n mod 64 / 8 * WIDTH + n mod 64 mod 8
               = fr' * 8 * WIDTH + uc' * 8 + n' mod 64 / 8 * WIDTH + n' mod 64 mod 8)
    by lia.
  rewrite Hd in E1, E2, E3, E4.
  assert (Hcell : n / 64 = n' / 64).
  { apply (place_injective odd col); try assumption.
    rewrite Hpl, Hpl'. do 2 f_equal; congruence. }
  assert (n mod 64 / 8 = n' mod 64 / 8) by congruence.
  assert (n mod 64 mod 8 = n' mod 64 mod 8) by congruence.
  divlia.
Qed.

(** C10: for every row parity and column class, the placement sending a
    storage index of [0, 32) to its final cell [(final_row, uc)] is a
    bijection onto the 8 x 4 cells: it is defined and in range, injective
    and onto.  Consequently, in the record of the stores that one
    macro-tile decode makes into the frame, no frame word occurs twice;
    every store made while utile [i] is placed goes to a word of the cell of
    [i], and the returned frame holds there the word of utile [i] that was
    stored; and every word of every one of the 32 cells is stored to, by
    exactly one utile.  The record is that of [decode_mtile_log], which
    returns the utile block and the frame that [decode_mtile] returns. *)
Theorem placement_is_bijection (buf : list word) (cur row col : Z)
    (frame : list word) (base : Z) (utile : list word) :
  0 <= col ->
  0 <= cur -> cur + 2048 <= len buf ->
  0 <= base -> base + 63 * WIDTH + 32 <= len frame ->
  len utile = 64 ->
  (forall i, 0 <= i < 32 ->
     exists fr uc, place (Z.rem row 2) col i = Ok (fr, uc) /\
                   0 <= fr < 8 /\ 0 <= uc < 4) /\
  (forall i i', 0 <= i < 32 -> 0 <= i' < 32 ->
     place (Z.rem row 2) col i = place (Z.rem row 2) col i' -> i = i') /\
  (forall fr uc, 0 <= fr < 8 -> 0 <= uc < 4 ->
     exists i, 0 <= i < 32 /\ place (Z.rem row 2) col i = Ok (fr, uc)) /\
  exists utile' frame' log,
    decode_mtile_log buf cur row col frame base utile = Ok (utile', frame', log) /\
    decode_mtile buf cur row col frame base utile = Ok (utile', frame') /\
    length log = 2048%nat /\
    NoDup (snd <$> log) /\
    (forall i p, (i, p) ∈ log ->
       0 <= i < 32 /\
       exists fr uc r c,
         place (Z.rem row 2) col i = Ok (fr, uc) /\
         (0 <= r < 8 /\ 0 <= c < 8) /\
         p = base + (fr * 8 * WIDTH + uc * 8) + r * WIDTH + c /\
         exists v, get buf (cur + i * 64 + entry utile_decoder r c) = Some v /\
                   get frame' p = Some v) /\
    (forall fr uc r c, 0 <= fr < 8 -> 0 <= uc < 4 -> 0 <= r < 8 -> 0 <= c < 8 ->
       exists i,
         place (Z.rem row 2) col i = Ok (fr, uc) /\
         (i, base + (fr * 8 * WIDTH + uc * 8) + r * WIDTH + c) ∈ log /\
         forall i', (i', base + (fr * 8 * WIDTH + uc * 8) + r * WIDTH + c) ∈ log ->
                    i' = i).
Proof.
  intros Hcol Hcur Hbuf Hbase Hframe Hutile.
  set (odd := Z.rem row 2).
  split; [|split; [|split]].
  - intros i Hi.
    destruct (place_in_range odd col i Hcol Hi) as (fr & uc & Hpl & Hr & _).
    exists fr, uc. split; [exact Hpl|exact Hr].
  - intros i i' Hi Hi'. now apply place_injective.
  - intros fr uc Hfr Huc.
    destruct (place_complete odd col fr uc Hcol Hfr Huc) as (Hi & Hpl).
    eexists. split; [exact Hi|exact Hpl].
  - destruct (decode_mtile_spec buf cur row col frame base utile)
      as (u' & f' & Hrun & _ & _ & Hget); try assumption.
    exists u', f', (mtile_stores odd col base).
    split; [rewrite decode_mtile_log_stores, Hrun; reflexivity|].
    split; [exact Hrun|].
    split; [unfold mtile_stores; now rewrite length_fmap, length_seqZ|].
    split; [now apply mtile_stores_distinct|].
    split.
    + intros i p Hin. apply (mtile_store_at odd col base i p Hcol) in Hin
        as (Hi & fr & uc & r & c & Hpl & (Hfr & Huc) & (Hr & Hc) & Hp).
      split; [exact Hi|]. exists fr, uc, r, c.
      split; [exact Hpl|]. split; [split; assumption|]. split; [exact Hp|].
      destruct (place_in_range odd col i Hcol Hi) as (fr0 & uc0 & Hpl0 & _ & Hent).
      rewrite Hpl in Hpl0. injection Hpl0 as <- <-.
      destruct (tbl_utile r c Hr Hc) as (_ & Hix).
      destruct (proj2 (get_Some_iff buf (cur + i * 64 + entry utile_decoder r c)))
        as (v & Hv); [lia|].
      exists v. split; [exact Hv|].
      rewrite Hget, Hp.
      replace (base + (fr * 8 * WIDTH + uc * 8) + r * WIDTH + c - base)
        with (fr * 8 * WIDTH + uc * 8 + r * WIDTH + c) by lia.
      destruct (utile_coords fr uc r c Hfr Huc Hr Hc) as (-> & (E1 & E2) & (E3 & E4)).
      unfold mtile_src, utile_at. rewrite E1, E2, E3, E4.
      fold odd. rewrite Hent.
      rewrite <- Hv. f_equal. lia.
    + intros fr uc r c Hfr Huc Hr Hc.
      destruct (place_complete odd col fr uc Hcol Hfr Huc) as (Hi & Hpl).
      eexists. split; [exact Hpl|]. split.
      * apply (mtile_store_at odd col base _ _ Hcol). split; [exact Hi|].
        now exists fr, uc, r, c.
      * intros i' Hin. apply (mtile_store_at odd col base i' _ Hcol) in Hin
          as (Hi' & fr' & uc' & r' & c' & Hpl' & (Hfr' & Huc') & (Hr' & Hc') & Hp).
        apply (place_injective odd col); try assumption.
        rewrite Hpl, Hpl'.
        destruct (utile_coords fr uc r c Hfr Huc Hr Hc) as (_ & (E1 & E2) & _).
        destruct (utile_coords fr' uc' r' c' Hfr' Huc' Hr' Hc')
          as (_ & (E1' & E2') & _).
        assert (Hd : fr * 8 * WIDTH + uc * 8 + r * WIDTH + c
                     = fr' * 8 * WIDTH + uc' * 8 + r' * WIDTH + c') by lia.
        rewrite Hd in E1, E2. do 2 f_equal; congruence.
Qed.

Lemma placement_is_bijection_witness :
  (forall i, 0 <= i < 32 ->
     exists fr uc, place (Z.rem 3 2) 6 i = Ok (fr, uc) /\
                   0 <= fr < 8 /\ 0 <= uc < 4) /\
  (forall i i', 0 <= i < 32 -> 0 <= i' < 32 ->
     place (Z.rem 3 2) 6 i = place (Z.rem 3 2) 6 i' -> i = i') /\
  (forall fr uc, 0 <= fr < 8 -> 0 <= uc < 4 ->
     exists i, 0 <= i < 32 /\ place (Z.rem 3 2) 6 i = Ok (fr, uc)) /\
  exists utile' frame' log,
    decode_mtile_log (seqZ 0 2048) 0 3 6 (replicate (Z.to_nat (64 * WIDTH)) 0) 0
      (replicate 64%nat 0) = Ok (utile', frame', log) /\
    decode_mtile (seqZ 0 2048) 0 3 6 (replicate (Z.to_nat (64 * WIDTH)) 0) 0
      (replicate 64%nat 0) = Ok (utile', frame') /\
    length log = 2048%nat /\
    NoDup (snd <$> log) /\
    (forall i p, (i, p) ∈ log ->
       0 <= i < 32 /\
       exists fr uc r c,
         place (Z.rem 3 2) 6 i = Ok (fr, uc) /\
         (0 <= r < 8 /\ 0 <= c < 8) /\
         p = 0 + (fr * 8 * WIDTH + uc * 8) + r * WIDTH + c /\
         exists v, get (seqZ 0 2048) (0 + i * 64 + entry utile_decoder r c) = Some v /\
                   get frame' p = Some v) /\
    (forall fr uc r c, 0 <= fr < 8 -> 0 <= uc < 4 -> 0 <= r < 8 -> 0 <= c < 8 ->
       exists i,
         place (Z.rem 3 2) 6 i = Ok (fr, uc) /\
         (i, 0 + (fr * 8 * WIDTH + uc * 8) + r * WIDTH + c) ∈ log /\
         forall i', (i', 0 + (fr * 8 * WIDTH + uc * 8) + r * WIDTH + c) ∈ log ->
                    i' = i).
Proof.
  apply (placement_is_bijection (seqZ 0 2048) 0 3 6
           (replicate (Z.to_nat (64 * WIDTH)) 0) 0 (replicate 64%nat 0)).
  - lia.
  - lia.
  - rewrite len_seqZ; lia.
  - lia.
  - rewrite len_replicate; unfold WIDTH; lia.
  - reflexivity.
Defined.

(** ** No assertion fails *)

Lemma bind_never {A B : Type} (e : fault) (c : result A) (k : A -> result B) :
  c <> Err e -> (forall a, c = Ok a -> k a <> Err e) -> bind c k <> Err e.
Proof.
  destruct c as [a|e']; simpl; intros Hc Hk; [now apply Hk|].
  intros Heq. apply Hc. congruence.
Qed.

Lemma for_from_never {St : Type} (e : fault) (body : Z -> St -> result St)
    (fuel : nat) :
  forall (i : Z) (s : St),
    (forall k t, i <= k < i + Z.of_nat fuel -> body k t <> Err e) ->
    for_from fuel i body s <> Err e.
Proof.
  induction fuel as [|fuel IH]; intros i s Hb; [discriminate|].
  cbn [for_from]. apply bind_never.
  - apply Hb. lia.
  - intros t _. apply IH. intros k u Hk. apply Hb. lia.
Qed.

Lemma for_loop_never {St : Type} (e : fault) (n : Z)
    (body : Z -> St -> result St) (s : St) :
  (forall i t, 0 <= i < n -> body i t <> Err e) ->
  for_loop n body s <> Err e.
Proof.
  intros Hb. apply for_from_never. intros k t Hk. apply Hb. lia.
Qed.

Lemma at_index_never {A : Type} (l : list A) (i : Z) :
  at_index l i <> Err AssertFailed.
Proof.
  unfold at_index. destruct (0 <=? i); [|discriminate].
  destruct (l !! Z.to_nat i); discriminate.
Qed.

Lemma tbl_never (t : list (list Z)) (r c : Z) : tbl t r c <> Err AssertFailed.
Proof.
  unfold tbl. apply bind_never; [apply at_index_never|].
  intros line _. apply at_index_never.
Qed.

Lemma load_never (m : list word) (p : Z) : load m p <> Err AssertFailed.
Proof. unfold load. destruct (get m p); discriminate. Qed.

Lemma store_never (m : list word) (p : Z) (v : word) :
  store m p v <> Err AssertFailed.
Proof. unfold store. destruct ((0 <=? p) && (p <? len m)); discriminate. Qed.

Lemma decode_utile_never (buf : list word) (off : Z) (out : list word) :
  decode_utile buf off out <> Err AssertFailed.
Proof.
  unfold decode_utile. apply for_loop_never. intros row o _.
  apply for_loop_never. intros col o' _.
  apply bind_never; [apply tbl_never|]. intros ix _.
  apply bind_never; [apply load_never|]. intros v _. apply store_never.
Qed.

Lemma copy_rows_never (utile : list word) (pixrow : Z) (frame : list word)
    (base : Z) :
  copy_rows utile pixrow frame base <> Err AssertFailed.
Proof.
  unfold copy_rows. apply for_loop_never. intros r [pr f] _.
  apply bind_never; [|discriminate].
  unfold memcpy. apply for_loop_never. intros k m _.
  apply bind_never; [apply load_never|]. intros v _. apply store_never.
Qed.

(** C6: for every storage index of [0, 32), every row parity and every
    column class both lookups succeed in range, so [place] passes both
    asserts; [decode_mtile] therefore never ends in a failed assertion,
    whatever the buffers, and on a full-size input the whole transform
    completes without error. *)
Theorem lookups_always_succeed (row col i : Z) (buf frame utile : list word)
    (cur base : Z) (input : list word) :
  0 <= col -> 0 <= i < 32 -> len input = WIDTH * HEIGHT ->
  (exists ur uc j,
     (0 <= ur < 8 /\ 0 <= uc < 4) /\
     locate (Z.rem row 2) i = Ok (ur, uc) /\
     tbl (primary (row mod 2)) ur uc = Ok i /\
     0 <= j < 8 /\
     refine (Z.rem row 2) col ur = Ok j /\
     tbl (secondary (row mod 2)) (col mod 4) j = Ok ur /\
     place (Z.rem row 2) col i = Ok (j, uc)) /\
  decode_mtile buf cur row col frame base utile <> Err AssertFailed /\
  (exists out, detile input (WIDTH * HEIGHT * 4) = Ok out).
Proof.
  intros Hcol Hi Hinput. split; [|split].
  - destruct (placement (Z.rem row 2) col i Hcol Hi)
      as (ur & uc & j & Hloc & (Hur & Huc) & HP & _ & Href & Hj & HS & _ & Hpl).
    exists ur, uc, j. split; [lia|]. split; [exact Hloc|]. split.
    { destruct (tbl_primary (Z.rem row 2) ur uc Hur Huc) as (Ht & _).
      rewrite HP, primary_mod in Ht. exact Ht. }
    split; [exact Hj|]. split; [exact Href|]. split; [|exact Hpl].
    destruct (tbl_secondary (Z.rem row 2) col j Hcol Hj) as (Ht & _).
    rewrite HS, secondary_mod, rem4_mod in Ht by lia. exact Ht.
  - unfold decode_mtile. apply for_loop_never. intros k [u f] Hk.
    unfold NUM_UTILES_PER_MTILE in Hk.
    apply bind_never; [apply decode_utile_never|]. intros u' _.
    destruct (placement (Z.rem row 2) col k Hcol)
      as (ur & uc & j & Hpl); [lia|].
    destruct Hpl as (_ & _ & _ & _ & _ & _ & _ & _ & Hpl).
    rewrite Hpl. cbn [bind].
    apply bind_never; [apply copy_rows_never|]. intros [pr f'] _. discriminate.
  - destruct (detile_spec input Hinput) as (out & Hrun & _). exists out. exact Hrun.
Qed.

Lemma lookups_always_succeed_witness :
  (exists ur uc j,
     (0 <= ur < 8 /\ 0 <= uc < 4) /\
     locate (Z.rem 7 2) 21 = Ok (ur, uc) /\
     tbl (primary (7 mod 2)) ur uc = Ok 21 /\
     0 <= j < 8 /\
     refine (Z.rem 7 2) 13 ur = Ok j /\
     tbl (secondary (7 mod 2)) (13 mod 4) j = Ok ur /\
     place (Z.rem 7 2) 13 21 = Ok (j, uc)) /\
  decode_mtile [] 0 7 13 [] 0 [] <> Err AssertFailed /\
  (exists out, detile (seqZ 0 (WIDTH * HEIGHT)) (WIDTH * HEIGHT * 4) = Ok out).
Proof.
  apply (lookups_always_succeed 7 13 21 [] [] [] 0 0 (seqZ 0 (WIDTH * HEIGHT))).
  - lia.
  - lia.
  - apply len_seqZ. apply NUM_WORDS_pos.
Defined.

(** ** What one macro-tile decode reads and writes *)

Lemma decode_utile_reads (buf buf' : list word) (off : Z) (out : list word) :
  (forall q, off <= q < off + 64 -> get buf' q = get buf q) ->
  decode_utile buf' off out = decode_utile buf off out.
Proof.
  intros Hslice. unfold decode_utile.
  apply for_loop_ext. intros row o Hrow.
  apply for_loop_ext. intros col o' Hcol.
  destruct (tbl_utile row col Hrow Hcol) as (-> & Hix). cbn [bind].
  unfold load. rewrite Hslice by lia. reflexivity.
Qed.

Lemma decode_mtile_reads (buf buf' : list word) (cur row col : Z)
    (frame : list word) (base : Z) (utile : list word) :
  (forall q, cur <= q < cur + 2048 -> get buf' q = get buf q) ->
  decode_mtile buf' cur row col frame base utile
  = decode_mtile buf cur row col frame base utile.
Proof.
  intros Hslice. unfold decode_mtile. cbv zeta.
  apply for_loop_ext. intros i [u f] Hi.
  unfold NUM_UTILES_PER_MTILE, NUM_WORDS_PER_UTILE in *.
  rewrite (decode_utile_reads buf buf'); [reflexivity|].
  intros q Hq. apply Hslice. lia.
Qed.

Lemma in_mtile_region (row col p : Z) :
  0 <= col < GRID_COLS ->
  in_mtile (p - (row * 64 * WIDTH + col * 32)) = true -> in_region row col p.
Proof.
  change GRID_COLS with 40. unfold in_mtile, in_region, WIDTH.
  intros Hcol Hin.
  repeat match goal with
         | Hx : _ && _ = true |- _ => apply andb_prop in Hx as [? ?]
         end.
  exists (p / 1280), (p mod 1280). divlia.
Qed.

Lemma in_region_unique (row col row' col' p : Z) :
  0 <= col < GRID_COLS -> 0 <= col' < GRID_COLS ->
  in_region row col p -> in_region row' col' p -> row = row' /\ col = col'.
Proof.
  change GRID_COLS with 40. unfold in_region, WIDTH.
  intros Hcol Hcol' (y & x & Hy & Hx & Hp) (y' & x' & Hy' & Hx' & Hp'). lia.
Qed.

(** C8: the decode of the macro tile [(row, col)] of the grid, of row-major
    index [i = row * GRID_COLS + col], started as the frame loop starts it.
    It reads only the input words of [[i * 2048, (i + 1) * 2048)]: a second
    input that agrees with the first on that slice gives the same result.
    It writes only inside its own region: every other word of the frame is
    unchanged.  And the regions of distinct cells of the grid have no word
    in common. *)
Theorem mtile_reads_and_writes_its_own (row col : Z)
    (buf buf' frame utile : list word) :
  0 <= row < HEIGHT / 64 -> 0 <= col < WIDTH / 32 ->
  len buf = WIDTH * HEIGHT -> len frame = WIDTH * HEIGHT -> len utile = 64 ->
  let i := row * (WIDTH / 32) + col in
  (forall q, i * 2048 <= q < (i + 1) * 2048 -> get buf' q = get buf q) ->
  exists utile' frame',
    decode_mtile buf (i * 2048) row col frame (row * 64 * WIDTH + col * 32) utile
      = Ok (utile', frame') /\
    decode_mtile buf' (i * 2048) row col frame (row * 64 * WIDTH + col * 32) utile
      = Ok (utile', frame') /\
    (forall p, ~ in_region row col p -> get frame' p = get frame p) /\
    (forall row' col' p,
       0 <= row' < HEIGHT / 64 -> 0 <= col' < WIDTH / 32 ->
       (row', col') <> (row, col) ->
       in_region row col p -> ~ in_region row' col' p).
Proof.
  fold GRID_ROWS GRID_COLS NUM_WORDS.
  intros Hrow Hcol Hbuf Hframe Hutile i Hslice.
  assert (Hi : 0 <= i < GRID_ROWS * GRID_COLS)
    by (subst i; revert Hrow Hcol; change GRID_ROWS with 12;
        change GRID_COLS with 40; lia).
  destruct (grid_cell row col Hcol) as (Er & Ec). fold i in Er, Ec.
  destruct (cell_bounds i Hi) as (_ & Hb0 & Hb1).
  unfold cell_base in Hb0, Hb1. rewrite Er, Ec in Hb0, Hb1.
  destruct (decode_mtile_spec buf (i * 2048) row col frame
              (row * 64 * WIDTH + col * 32) utile)
    as (u' & f' & Hrun & _ & _ & Hget); try assumption; try lia.
  { revert Hi. rewrite Hbuf. unfold NUM_WORDS.
    change GRID_ROWS with 12. change GRID_COLS with 40. unfold WIDTH, HEIGHT. lia. }
  exists u', f'. split; [exact Hrun|]. split; [|split].
  - rewrite (decode_mtile_reads buf buf'); [exact Hrun|].
    intros q Hq. apply Hslice. lia.
  - intros p Hout. rewrite Hget.
    destruct (in_mtile (p - (row * 64 * WIDTH + col * 32))) eqn:Hin; [|reflexivity].
    exfalso. apply Hout. now apply in_mtile_region.
  - intros row' col' p Hrow' Hcol' Hne Hin Hin'.
    apply Hne. destruct (in_region_unique row col row' col' p) as [-> ->];
      try assumption.
    reflexivity.
Qed.

Lemma mtile_reads_and_writes_its_own_witness :
  let i := 1 * (WIDTH / 32) + 2 in
  exists utile' frame',
    decode_mtile (seqZ 0 (WIDTH * HEIGHT)) (i * 2048) 1 2
      (replicate (Z.to_nat (WIDTH * HEIGHT)) 0) (1 * 64 * WIDTH + 2 * 32)
      (replicate 64%nat 0) = Ok (utile', frame') /\
    decode_mtile (seqZ 0 ((i + 1) * 2048)) (i * 2048) 1 2
      (replicate (Z.to_nat (WIDTH * HEIGHT)) 0) (1 * 64 * WIDTH + 2 * 32)
      (replicate 64%nat 0) = Ok (utile', frame') /\
    (forall p, ~ in_region 1 2 p ->
       get frame' p = get (replicate (Z.to_nat (WIDTH * HEIGHT)) 0) p) /\
    (forall row' col' p,
       0 <= row' < HEIGHT / 64 -> 0 <= col' < WIDTH / 32 ->
       (row', col') <> (1, 2) ->
       in_region 1 2 p -> ~ in_region row' col' p).
Proof.
  apply (mtile_reads_and_writes_its_own 1 2 (seqZ 0 (WIDTH * HEIGHT))
           (seqZ 0 ((1 * (WIDTH / 32) + 2 + 1) * 2048))
           (replicate (Z.to_nat (WIDTH * HEIGHT)) 0) (replicate 64%nat 0)).
  - vm_compute. split; discriminate || reflexivity.
  - vm_compute. split; discriminate || reflexivity.
  - apply len_seqZ. apply NUM_WORDS_pos.
  - apply len_replicate. apply NUM_WORDS_pos.
  - reflexivity.
  - intros q Hq. change (1 * (WIDTH / 32) + 2) with 42 in Hq.
    change ((1 * (WIDTH / 32) + 2 + 1) * 2048) with 88064.
    change (WIDTH * HEIGHT) with 983040.
    rewrite !get_seqZ by lia. reflexivity.
Defined.

(** ** main *)

Lemma length_words_of_bytes (n : nat) :
  forall data : list Byte.byte,
    length data = (4 * n)%nat -> length (words_of_bytes data) = n.
Proof.
  induction n as [|n IH]; intros data Hlen.
  - destruct data; [reflexivity|discriminate].
  - destruct data as [|b0 [|b1 [|b2 [|b3 rest]]]]; simpl in Hlen; try lia.
    cbn [words_of_bytes length]. f_equal. apply IH. lia.
Qed.

Lemma to_int_fits (z : Z) : 0 <= z < 2 ^ 31 -> to_int z = z.
Proof. intros Hz. unfold to_int. rewrite Z.mod_small; lia. Qed.

Lemma to_int_range (z : Z) : - 2 ^ 31 <= to_int z < 2 ^ 31.
Proof. unfold to_int. divlia. Qed.

(** The size assertion compares in [unsigned long]; it passes exactly when
    the [int] [size] is [WIDTH * HEIGHT * 4]. *)
Lemma size_check (z : Z) :
  (to_ulong (to_int z) =? WIDTH * HEIGHT * 4) = (to_int z =? WIDTH * HEIGHT * 4).
Proof.
  pose proof (to_int_range z) as Hr. unfold to_ulong.
  change (WIDTH * HEIGHT * 4) with 3932160.
  destruct (Z.eqb_spec (to_int z) 3932160) as [E|E].
  - rewrite E. reflexivity.
  - apply Z.eqb_neq. divlia.
Qed.

Lemma length_fread_into (w : world) (file : list Byte.byte) (n : Z) :
  length (fread_into w file n) = Z.to_nat n.
Proof. unfold fread_into. now rewrite length_fmap, length_seqZ. Qed.

(** A read in full of the whole file leaves the file in the block. *)
Lemma fread_into_full (w : world) (file : list Byte.byte) :
  Z.of_nat (length file) <= fread_count w ->
  fread_into w file (Z.of_nat (length file)) = file.
Proof.
  intros Hcount. apply list_eq. intros i. unfold fread_into.
  rewrite list_lookup_fmap.
  destruct (Nat.lt_ge_cases i (length file)) as [Hi|Hi].
  - rewrite lookup_seqZ_lt by lia. cbn [fmap option_fmap option_map].
    rewrite lookup_take_lt by lia.
    replace (Z.to_nat (0 + Z.of_nat i)) with i by lia.
    destruct (lookup_lt_is_Some_2 file i Hi) as (b & Hb). now rewrite Hb.
  - rewrite lookup_seqZ_ge by lia. symmetry. now apply lookup_ge_None.
Qed.

(** When [main] reaches the frame loop, the input buffer holds a full
    tiled frame. *)
Lemma len_buf_at_loop (w : world) (file : list Byte.byte) :
  len (words_of_bytes (fread_into w file (WIDTH * HEIGHT * 4))) = NUM_WORDS.
Proof.
  unfold len. rewrite (length_words_of_bytes (Z.to_nat NUM_WORDS)).
  - apply Z2Nat.id, NUM_WORDS_pos.
  - rewrite length_fread_into. apply Nat2Z.inj.
    rewrite Nat2Z.inj_mul, !Z2Nat.id; unfold NUM_WORDS, WIDTH, HEIGHT; lia.
Qed.

(** [main] up to the size assertion. *)
Lemma main_to_assert (w : world) (file : list Byte.byte) :
  argc w = 3 -> fopen_in w = Some file -> malloc_buf w = true ->
  to_int (ftell_result w) <> WIDTH * HEIGHT * 4 ->
  main w = Aborted.
Proof.
  intros Hargc Hopen Hbuf Hsize. unfold main.
  rewrite Hargc, Hopen, Hbuf. cbn [Z.eqb Pos.eqb negb]. cbv zeta.
  rewrite size_check.
  destruct (Z.eqb_spec (to_int (ftell_result w)) (WIDTH * HEIGHT * 4));
    [contradiction|reflexivity].
Qed.

(** [main] from the size assertion on, when it passes. *)
Lemma main_past_assert (w : world) (file : list Byte.byte) :
  argc w = 3 -> fopen_in w = Some file -> malloc_buf w = true ->
  to_int (ftell_result w) = WIDTH * HEIGHT * 4 ->
  exists out,
    detile (words_of_bytes (fread_into w file (WIDTH * HEIGHT * 4)))
      (WIDTH * HEIGHT * 4) = Ok out /\
    main w =
      if negb (malloc_out w) then Returned ENOMEM None
      else if negb (fopen_out w) then Returned (errno_out w) None
      else Returned 0
             (Some (take (Z.to_nat (fwrite_count w)) (bytes_of_words out))).
Proof.
  intros Hargc Hopen Hbuf Hsize.
  destruct (detile_spec _ (len_buf_at_loop w file)) as (out & Hrun & _).
  exists out. split; [exact Hrun|]. unfold main.
  rewrite Hargc, Hopen, Hbuf. cbn [Z.eqb Pos.eqb negb]. cbv zeta.
  rewrite size_check, Hsize, Z.eqb_refl. cbn [assert].
  change (to_ulong (WIDTH * HEIGHT * 4)) with (WIDTH * HEIGHT * 4).
  destruct (malloc_out w); cbn [negb]; [|reflexivity].
  fold NUM_WORDS in Hrun |- *. rewrite Hrun. reflexivity.
Qed.

(** C7, as the specification states it, fails: on a one-byte input, with
    every call of the library succeeding, [main] does not report an error
    to its caller; the assertion kills the process. *)
Lemma wrong_size_not_reported :
  Z.of_nat (length [Byte.x00]) <> WIDTH * HEIGHT * 4 /\
  main (plain_run [Byte.x00]) = Aborted /\
  ~ exists status written,
      main (plain_run [Byte.x00]) = Returned status written.
Proof.
  assert (H : main (plain_run [Byte.x00]) = Aborted)
    by (apply (main_to_assert _ [Byte.x00]); vm_compute; congruence).
  split; [vm_compute; discriminate|]. split; [exact H|].
  intros (status & written & H'). rewrite H in H'. discriminate.
Qed.

(** C7, amended: when the input file opens, its length is not
    [WIDTH * HEIGHT * 4] bytes and fits an [int], and the input buffer is
    allocated, the size assertion fails and the run is aborted, before any
    decoding and without any output. *)
Theorem wrong_size_aborts (w : world) (file : list Byte.byte) :
  argc w = 3 ->
  fopen_in w = Some file ->
  ftell_result w = Z.of_nat (length file) ->
  Z.of_nat (length file) < 2 ^ 31 ->
  malloc_buf w = true ->
  Z.of_nat (length file) <> WIDTH * HEIGHT * 4 ->
  main w = Aborted.
Proof.
  intros Hargc Hopen Htell Hfits Hbuf Hsize.
  apply (main_to_assert w file Hargc Hopen Hbuf).
  rewrite Htell, to_int_fits by lia. exact Hsize.
Qed.

Lemma wrong_size_aborts_witness : main (plain_run [Byte.x00]) = Aborted.
Proof.
  apply (wrong_size_aborts (plain_run [Byte.x00]) [Byte.x00]);
    vm_compute; congruence.
Defined.

(** * Further properties of the transform *)

(** ** The transform only moves words *)

Lemma get_tabulate (f : Z -> word) (n q : Z) :
  get (f <$> seqZ 0 n) q =
  if (0 <=? q) && (q <? n) then Some (f q) else None.
Proof.
  unfold get. destruct (Z.leb_spec 0 q) as [Hq|Hq]; [|reflexivity]. cbn [andb].
  rewrite list_lookup_fmap.
  destruct (Z.ltb_spec q n) as [Hlt|Hge].
  - rewrite lookup_seqZ_lt by lia.
    replace (0 + Z.of_nat (Z.to_nat q)) with q by lia. reflexivity.
  - rewrite lookup_seqZ_ge by lia. reflexivity.
Qed.

(** A buffer is the table of its own words. *)
Lemma buffer_tabulate (m : list word) :
  m = (fun q => default 0 (get m q)) <$> seqZ 0 (len m).
Proof.
  apply get_ext. intros q. rewrite get_tabulate.
  destruct (Z.leb_spec 0 q) as [Hq|Hq]; cbn [andb];
    [destruct (Z.ltb_spec q (len m)) as [Hlt|Hge]|].
  - destruct (proj2 (get_Some_iff m q)) as (v & Hv); [lia|]. now rewrite Hv.
  - apply get_None_iff. lia.
  - apply get_None_iff. lia.
Qed.

(** The output of the transform as a gather: position [p] receives the
    input word [frame_src p]. *)
Lemma detile_gather (buf : list word) :
  len buf = NUM_WORDS ->
  detile buf (NUM_WORDS * 4)
  = Ok ((fun p => default 0 (get buf (frame_src p))) <$> seqZ 0 NUM_WORDS).
Proof.
  intros Hbuf. destruct (detile_spec buf Hbuf) as (out & Hrun & Hlen & Hget).
  rewrite Hrun. apply (f_equal Ok). rewrite (buffer_tabulate out), Hlen.
  apply get_ext. intros p. rewrite !get_tabulate.
  destruct ((0 <=? p) && (p <? NUM_WORDS)) eqn:Hp; [|reflexivity].
  apply andb_prop in Hp as [H0 H1]. apply Z.leb_le in H0. apply Z.ltb_lt in H1.
  rewrite Hget by lia. reflexivity.
Qed.

Lemma frame_src_permutes :
  Permutation (frame_src <$> seqZ 0 NUM_WORDS) (seqZ 0 NUM_WORDS).
Proof.
  apply NoDup_Permutation.
  - apply NoDup_fmap_2_strong; [|apply NoDup_seqZ].
    intros p p' Hp Hp' Heq. apply elem_of_seqZ in Hp, Hp'.
    destruct (frame_dst_src p) as (_ & <-); [lia|].
    destruct (frame_dst_src p') as (_ & <-); [lia|].
    now rewrite Heq.
  - apply NoDup_seqZ.
  - intros q. rewrite list_elem_of_fmap. split.
    + intros (p & -> & Hp). apply elem_of_seqZ in Hp. apply elem_of_seqZ.
      destruct (frame_dst_src p) as (Hs & _); lia.
    + intros Hq. apply elem_of_seqZ in Hq.
      destruct (frame_src_dst q) as (Hp & Hsrc); [lia|].
      exists (frame_dst q). split; [now rewrite Hsrc|]. apply elem_of_seqZ. lia.
Qed.

Lemma detile_permutation (buf : list word) :
  len buf = NUM_WORDS ->
  exists out, detile buf (NUM_WORDS * 4) = Ok out /\ Permutation out buf.
Proof.
  intros Hbuf. eexists. split; [apply detile_gather, Hbuf|].
  set (g := fun q => default 0 (get buf q)).
  assert (Hb : buf = g <$> seqZ 0 NUM_WORDS)
    by (rewrite <- Hbuf; apply buffer_tabulate).
  enough (HP : Permutation (g ∘ frame_src <$> seqZ 0 NUM_WORDS)
                 (g <$> seqZ 0 NUM_WORDS))
    by (rewrite <- Hb in HP; exact HP).
  rewrite list_fmap_compose. apply fmap_Permutation. exact frame_src_permutes.
Qed.

(** On a full-size input the output holds exactly the words of the input,
    each as often as the input does: the transform permutes the words and
    neither drops, repeats nor invents one. *)
Theorem detile_permutes_words (buf : list word) :
  len buf = WIDTH * HEIGHT ->
  exists out, detile buf (WIDTH * HEIGHT * 4) = Ok out /\ Permutation out buf.
Proof. exact (detile_permutation buf). Qed.

Lemma detile_permutes_words_witness :
  exists out, detile (seqZ 7 (WIDTH * HEIGHT)) (WIDTH * HEIGHT * 4) = Ok out /\
              Permutation out (seqZ 7 (WIDTH * HEIGHT)).
Proof.
  apply (detile_permutes_words (seqZ 7 (WIDTH * HEIGHT))).
  unfold len. rewrite length_seqZ. apply Z2Nat.id. apply NUM_WORDS_pos.
Defined.

(** The transform never looks inside a word: applying any function to
    every word before the transform or after it gives the same frame. *)
Theorem detile_commutes_with_map (f : word -> word) (buf : list word) :
  len buf = WIDTH * HEIGHT ->
  exists out, detile buf (WIDTH * HEIGHT * 4) = Ok out /\
              detile (f <$> buf) (WIDTH * HEIGHT * 4) = Ok (f <$> out).
Proof.
  fold NUM_WORDS. intros Hbuf. eexists. split; [apply detile_gather, Hbuf|].
  rewrite detile_gather by (unfold len; rewrite length_fmap; exact Hbuf).
  apply (f_equal Ok). rewrite <- list_fmap_compose. apply get_ext. intros p.
  rewrite !get_tabulate.
  destruct ((0 <=? p) && (p <? NUM_WORDS)) eqn:Hp; [|reflexivity].
  apply andb_prop in Hp as [H0 H1]. apply Z.leb_le in H0. apply Z.ltb_lt in H1.
  destruct (frame_dst_src p) as (Hs & _); [lia|].
  destruct (proj2 (get_Some_iff buf (frame_src p))) as (v & Hv); [lia|].
  unfold compose. rewrite Hv. unfold get in *.
  destruct (0 <=? frame_src p); [|discriminate].
  rewrite list_lookup_fmap, Hv. reflexivity.
Qed.

Lemma detile_commutes_with_map_witness :
  exists out,
    detile (seqZ 0 (WIDTH * HEIGHT)) (WIDTH * HEIGHT * 4) = Ok out /\
    detile (Z.succ <$> seqZ 0 (WIDTH * HEIGHT)) (WIDTH * HEIGHT * 4)
    = Ok (Z.succ <$> out).
Proof.
  apply (detile_commutes_with_map Z.succ (seqZ 0 (WIDTH * HEIGHT))).
  unfold len. rewrite length_seqZ. apply Z2Nat.id. apply NUM_WORDS_pos.
Defined.

(** ** What a macro-tile decode leaves behind *)

Lemma mtile_src_range (odd col d : Z) :
  0 <= col -> in_mtile d = true -> 0 <= mtile_src odd col d < 2048.
Proof.
  intros Hcol Hin. destruct (in_mtile_cell d Hin) as (Hfr & Huc).
  destruct (tbl_secondary odd col _ Hcol Hfr) as (_ & Hur).
  destruct (tbl_primary odd _ _ Hur Huc) as (_ & Hi).
  assert (Hr : 0 <= d / WIDTH mod 8 < 8) by (unfold WIDTH; divlia).
  assert (Hc : 0 <= d mod WIDTH mod 8 < 8) by (unfold WIDTH; divlia).
  destruct (tbl_utile _ _ Hr Hc) as (_ & Hw).
  unfold mtile_src, utile_at. lia.
Qed.

Lemma in_mtile_offset (y x : Z) :
  0 <= y < 64 -> 0 <= x < 32 -> in_mtile (y * WIDTH + x) = true.
Proof.
  intros Hy Hx. unfold in_mtile, WIDTH. zcases; try reflexivity; divlia.
Qed.

(** A macro-tile decode fills its whole destination: each of the
    64 x 32 words from [base] on ends up holding a word of the 2048-word
    input slice. *)
Theorem decode_mtile_fills_region (buf : list word) (cur row col : Z)
    (frame : list word) (base : Z) (utile : list word) :
  0 <= col ->
  0 <= cur -> cur + 2048 <= len buf ->
  0 <= base -> base + 63 * WIDTH + 32 <= len frame ->
  len utile = 64 ->
  exists utile' frame',
    decode_mtile buf cur row col frame base utile = Ok (utile', frame') /\
    len frame' = len frame /\
    forall y x, 0 <= y < 64 -> 0 <= x < 32 ->
      exists q v, cur <= q < cur + 2048 /\ get buf q = Some v /\
                  get frame' (base + y * WIDTH + x) = Some v.
Proof.
  intros Hcol Hcur Hbuf Hbase Hframe Hutile.
  destruct (decode_mtile_spec buf cur row col frame base utile)
    as (u' & f' & Hrun & _ & Hlen & Hget); try assumption.
  exists u', f'. split; [exact Hrun|]. split; [exact Hlen|].
  intros y x Hy Hx. pose proof (in_mtile_offset y x Hy Hx) as Hin.
  pose proof (mtile_src_range (Z.rem row 2) col _ Hcol Hin) as Hsrc.
  set (q := cur + mtile_src (Z.rem row 2) col (y * WIDTH + x)).
  destruct (proj2 (get_Some_iff buf q)) as (v & Hv); [subst q; lia|].
  exists q, v. split; [subst q; lia|]. split; [exact Hv|].
  rewrite Hget. replace (base + y * WIDTH + x - base) with (y * WIDTH + x) by lia.
  rewrite Hin. exact Hv.
Qed.

Lemma decode_mtile_fills_region_witness :
  exists utile' frame',
    decode_mtile (seqZ 0 4096) 2048 3 5 (replicate (Z.to_nat (70 * WIDTH)) 0) 64
      (replicate 64%nat 0) = Ok (utile', frame') /\
    len frame' = len (replicate (Z.to_nat (70 * WIDTH)) 0) /\
    forall y x, 0 <= y < 64 -> 0 <= x < 32 ->
      exists q v, 2048 <= q < 2048 + 2048 /\ get (seqZ 0 4096) q = Some v /\
                  get frame' (64 + y * WIDTH + x) = Some v.
Proof.
  apply (decode_mtile_fills_region (seqZ 0 4096) 2048 3 5
           (replicate (Z.to_nat (70 * WIDTH)) 0) 64 (replicate 64%nat 0)).
  - lia.
  - lia.
  - rewrite len_seqZ; lia.
  - lia.
  - rewrite len_replicate; unfold WIDTH; lia.
  - reflexivity.
Defined.



(** ** What the frame loop leaves behind *)

Lemma frame_loops_cursor (buf utile frame : list word) :
  len buf = NUM_WORDS -> len frame = NUM_WORDS -> len utile = 64 ->
  exists utile' frame',
    frame_loops buf utile frame = Ok (NUM_WORDS, utile', frame').
Proof.
  intros Hbuf Hframe Hutile. rewrite frame_loops_flat.
  destruct (for_loop_inv (fun k (st : Z * list Z * list Z) =>
              fst (fst st) = k * 2048 /\
              len (snd (fst st)) = 64 /\ len (snd st) = NUM_WORDS)
            (GRID_ROWS * GRID_COLS) (decode_cell buf) (0, utile, frame))
    as ([[cur u] f] & Hrun & Hcur & _).
  - vm_compute. discriminate.
  - simpl. split; [reflexivity|]. split; assumption.
  - intros k [[cur u] f] Hk (_ & Hlu & Hlf). simpl in Hlu, Hlf.
    destruct (cell_bounds k Hk) as (Hcol & Hb0 & Hb1).
    destruct (decode_mtile_spec buf (k * 2048) (k / GRID_COLS) (k mod GRID_COLS)
                f (cell_base k) u) as (u' & f' & Hdm & Hlu' & Hlf' & _);
      try assumption; try lia.
    { revert Hk. rewrite Hbuf. unfold NUM_WORDS.
      change GRID_ROWS with 12. change GRID_COLS with 40. unfold WIDTH, HEIGHT. lia. }
    exists ((k + 1) * 2048, u', f'). split.
    { unfold decode_cell. cbv zeta. fold (cell_base k). now rewrite Hdm. }
    simpl. split; [reflexivity|]. split; [exact Hlu'|lia].
  - simpl in Hcur. subst cur. exists u, f. exact Hrun.
Qed.

(** The frame loop consumes the input exactly and overwrites the whole
    output: it ends with the cursor at [WIDTH * HEIGHT], the length of the
    input, and with a frame that depends neither on what the output buffer
    held at the start (the zeros of [memset] are never visible) nor on what
    the static scratch block held. *)
Theorem frame_loops_consume_and_overwrite (buf : list word)
    (utile1 frame1 utile2 frame2 : list word) :
  len buf = WIDTH * HEIGHT ->
  len frame1 = WIDTH * HEIGHT -> len frame2 = WIDTH * HEIGHT ->
  len utile1 = 64 -> len utile2 = 64 ->
  exists utile1' utile2' out,
    frame_loops buf utile1 frame1 = Ok (WIDTH * HEIGHT, utile1', out) /\
    frame_loops buf utile2 frame2 = Ok (WIDTH * HEIGHT, utile2', out).
Proof.
  fold NUM_WORDS. intros Hbuf Hf1 Hf2 Hu1 Hu2.
  destruct (frame_loops_cursor buf utile1 frame1 Hbuf Hf1 Hu1) as (u1 & f1 & Hrun1).
  destruct (frame_loops_cursor buf utile2 frame2 Hbuf Hf2 Hu2) as (u2 & f2 & Hrun2).
  destruct (frame_loops_spec buf utile1 frame1 Hbuf Hf1 Hu1)
    as (c1 & v1 & g1 & Hs1 & Hl1 & Hg1).
  destruct (frame_loops_spec buf utile2 frame2 Hbuf Hf2 Hu2)
    as (c2 & v2 & g2 & Hs2 & Hl2 & Hg2).
  rewrite Hrun1 in Hs1. injection Hs1 as _ _ <-.
  rewrite Hrun2 in Hs2. injection Hs2 as _ _ <-.
  exists u1, u2, f1. split; [exact Hrun1|]. rewrite Hrun2.
  apply (f_equal Ok). f_equal. apply get_ext. intros p.
  destruct (Z_lt_le_dec p 0) as [Hneg|Hpos];
    [|destruct (Z_lt_le_dec p NUM_WORDS) as [Hlt|Hge]].
  - transitivity (@None Z); [|symmetry]; apply get_None_iff; lia.
  - rewrite Hg1, Hg2 by lia. reflexivity.
  - transitivity (@None Z); [|symmetry]; apply get_None_iff; lia.
Qed.

Lemma frame_loops_consume_and_overwrite_witness :
  exists utile1' utile2' out,
    frame_loops (seqZ 0 (WIDTH * HEIGHT)) (replicate 64%nat 0)
      (replicate (Z.to_nat (WIDTH * HEIGHT)) 0) = Ok (WIDTH * HEIGHT, utile1', out) /\
    frame_loops (seqZ 0 (WIDTH * HEIGHT)) (replicate 64%nat 1)
      (replicate (Z.to_nat (WIDTH * HEIGHT)) 9) = Ok (WIDTH * HEIGHT, utile2', out).
Proof.
  apply (frame_loops_consume_and_overwrite (seqZ 0 (WIDTH * HEIGHT))
           (replicate 64%nat 0) (replicate (Z.to_nat (WIDTH * HEIGHT)) 0)
           (replicate 64%nat 1) (replicate (Z.to_nat (WIDTH * HEIGHT)) 9)).
  - apply len_seqZ, NUM_WORDS_pos.
  - apply len_replicate, NUM_WORDS_pos.
  - apply len_replicate, NUM_WORDS_pos.
  - reflexivity.
  - reflexivity.
Defined.

(** ** The searches at the edges *)

Lemma primary_cases (odd : Z) :
  (odd =? 0) = true /\ primary odd = mtile_decoder_0x \/
  (odd =? 0) = false /\ primary odd = mtile_decoder_1x.
Proof. unfold primary. destruct (odd =? 0); [left|right]; now split. Qed.

(** On a cell of the table the two tests of the search compare the entry
    of the selected table with [i]. *)
Lemma hit_cell_entry (odd i ur uc : Z) :
  0 <= ur < 8 -> 0 <= uc < 4 ->
  hit_cell odd i ur uc = Ok (entry (primary odd) ur uc =? i).
Proof.
  intros Hur Huc. destruct (tbl_primary odd ur uc Hur Huc) as (Ht & _).
  unfold hit_cell, tbl_is.
  destruct (primary_cases odd) as [(E & EP)|(E & EP)]; rewrite E, EP in *; simpl.
  - rewrite Ht. simpl. now destruct (entry mtile_decoder_0x ur uc =? i).
  - now rewrite Ht.
Qed.

Lemma scan_uc_miss (odd i ur : Z) (fuel : nat) :
  0 <= ur < 8 -> ~ 0 <= i < 32 ->
  forall uc, 0 <= uc -> uc + Z.of_nat fuel <= 4 ->
    scan_uc fuel odd i ur uc = Ok (false, uc + Z.of_nat fuel).
Proof.
  intros Hur Hi. induction fuel as [|fuel IH]; intros uc Huc Hfuel.
  - simpl. do 2 f_equal. lia.
  - cbn [scan_uc]. rewrite hit_cell_entry by lia.
    destruct (tbl_primary odd ur uc) as (_ & He); [lia..|].
    destruct (Z.eqb_spec (entry (primary odd) ur uc) i) as [E|_]; [lia|].
    cbn [bind]. rewrite IH by lia. do 2 f_equal. lia.
Qed.

Lemma scan_ur_miss (odd i : Z) (fuel : nat) :
  ~ 0 <= i < 32 ->
  forall ur, 0 <= ur -> ur + Z.of_nat fuel <= 8 ->
    scan_ur fuel odd i ur 4 = Ok (ur + Z.of_nat fuel, 4).
Proof.
  intros Hi. induction fuel as [|fuel IH]; intros ur Hur Hfuel.
  - simpl. do 2 f_equal. lia.
  - cbn [scan_ur]. rewrite (scan_uc_miss odd i ur 4) by lia.
    cbn [bind]. change (0 + Z.of_nat 4) with 4.
    rewrite IH by lia. do 2 f_equal. lia.
Qed.

(** For an index that no entry of the primary table holds, the coarse-cell
    search runs off the table: it ends at [(ur, uc) = (8, 4)], and the first
    assertion of [decode_mtile] fails. *)
Theorem place_unknown_index_fails (odd col i : Z) :
  ~ 0 <= i < 32 ->
  locate odd i = Ok (8, 4) /\ place odd col i = Err AssertFailed.
Proof.
  intros Hi.
  assert (Hloc : locate odd i = Ok (8, 4)).
  { unfold locate. change (scan_ur 8 odd i 0 0) with (scan_ur 8 odd i 0 4).
    rewrite scan_ur_miss by lia. reflexivity. }
  split; [exact Hloc|]. unfold place. rewrite Hloc. reflexivity.
Qed.

Lemma place_unknown_index_fails_witness :
  locate 1 32 = Ok (8, 4) /\ place 1 6 32 = Err AssertFailed.
Proof. apply (place_unknown_index_fails 1 6 32). lia. Defined.

(** A negative column whose remainder [col % 4] is not zero makes the row
    search index before the first row of the secondary table: an access
    outside the table. *)
Theorem place_negative_column_out_of_bounds (odd col i : Z) :
  0 <= i < 32 -> Z.rem col 4 < 0 ->
  place odd col i = Err OutOfBounds.
Proof.
  intros Hi Hcol.
  destruct (placement odd 0 i) as (ur & uc & j & Hloc & (Hur & Huc) & _); [lia..|].
  unfold place. rewrite Hloc. cbn [bind].
  destruct (Z.ltb_spec ur 8); [|lia]. destruct (Z.ltb_spec uc 4); [|lia].
  cbn [andb assert bind]. unfold refine. change 8%nat with (S 7).
  cbn [scan_j]. unfold hit_row, tbl_is, tbl, at_index.
  destruct (Z.leb_spec 0 (Z.rem col 4)); [lia|].
  destruct (odd =? 0); reflexivity.
Qed.

Lemma place_negative_column_out_of_bounds_witness :
  place 0 (-1) 5 = Err OutOfBounds.
Proof.
  apply (place_negative_column_out_of_bounds 0 (-1) 5).
  - lia.
  - vm_compute. reflexivity.
Defined.

(** ** Only the parity of the row and the class of the column matter *)

Lemma place_by_class (odd col col' i : Z) :
  Z.rem col 4 = Z.rem col' 4 -> place odd col i = place odd col' i.
Proof. intros E. now rewrite (place_norm odd col), (place_norm odd col'), E. Qed.

(** [decode_mtile] uses the coordinates of the macro tile only through
    [row % 2] and [col % 4]: two cells with the same remainders are decoded
    in exactly the same way. *)
Theorem decode_mtile_by_parity_and_class (buf : list word) (cur : Z)
    (row col row' col' : Z) (frame : list word) (base : Z) (utile : list word) :
  Z.rem row 2 = Z.rem row' 2 -> Z.rem col 4 = Z.rem col' 4 ->
  decode_mtile buf cur row col frame base utile
  = decode_mtile buf cur row' col' frame base utile.
Proof.
  intros Erow Ecol. unfold decode_mtile. rewrite Erow. cbv zeta.
  apply for_loop_ext. intros i [u f] _.
  now rewrite (place_by_class _ col col').
Qed.

Lemma decode_mtile_by_parity_and_class_witness :
  decode_mtile (seqZ 0 2048) 0 1 2 (replicate (Z.to_nat (64 * WIDTH)) 0) 0
    (replicate 64%nat 0)
  = decode_mtile (seqZ 0 2048) 0 11 38 (replicate (Z.to_nat (64 * WIDTH)) 0) 0
      (replicate 64%nat 0).
Proof.
  apply (decode_mtile_by_parity_and_class (seqZ 0 2048) 0 1 2 11 38); reflexivity.
Defined.

(** ** The exact memory footprint *)

(** What a successful loop tells: an invariant that every successful
    iteration keeps holds at the end, and every iteration in range ran
    successfully from a state satisfying it. *)
Lemma for_from_Ok {St : Type} (I : Z -> St -> Prop)
    (body : Z -> St -> result St) (fuel : nat) :
  forall (i : Z) (s s' : St),
    for_from fuel i body s = Ok s' ->
    I i s ->
    (forall k t t', i <= k < i + Z.of_nat fuel -> I k t -> body k t = Ok t' ->
       I (k + 1) t') ->
    I (i + Z.of_nat fuel) s' /\
    forall k, i <= k < i + Z.of_nat fuel -> exists t t', I k t /\ body k t = Ok t'.
Proof.
  induction fuel as [|fuel IH]; intros i s s' Hrun Hi Hstep.
  - injection Hrun as <-. split; [now replace (i + Z.of_nat 0) with i by lia|].
    intros k Hk. lia.
  - cbn [for_from] in Hrun. apply bind_Ok in Hrun as (t & Hbody & Hrest).
    destruct (IH (i + 1) t s' Hrest) as (Hend & Hall).
    + apply (Hstep i s t); [lia|assumption|assumption].
    + intros k u u' Hk. apply Hstep. lia.
    + split; [now replace (i + Z.of_nat (S fuel)) with (i + 1 + Z.of_nat fuel) by lia|].
      intros k Hk. destruct (Z.eq_dec k i) as [->|Hne].
      * exists s, t. now split.
      * apply Hall. lia.
Qed.

Lemma for_loop_Ok {St : Type} (I : Z -> St -> Prop) (n : Z)
    (body : Z -> St -> result St) (s s' : St) :
  0 <= n ->
  for_loop n body s = Ok s' ->
  I 0 s ->
  (forall k t t', 0 <= k < n -> I k t -> body k t = Ok t' -> I (k + 1) t') ->
  I n s' /\ forall k, 0 <= k < n -> exists t t', I k t /\ body k t = Ok t'.
Proof.
  intros Hn Hrun H0 Hstep. unfold for_loop in Hrun.
  destruct (for_from_Ok I body (Z.to_nat n) 0 s s' Hrun H0) as (Hend & Hall).
  - intros k t t' Hk. apply Hstep. lia.
  - split; [now replace n with (0 + Z.of_nat (Z.to_nat n)) by lia|].
    intros k Hk. apply Hall. lia.
Qed.

Lemma load_Ok (m : list word) (p : Z) (v : word) :
  load m p = Ok v -> 0 <= p < len m.
Proof.
  unfold load. destruct (get m p) as [w|] eqn:Hg; [|discriminate].
  intros _. apply get_Some_iff. eauto.
Qed.

Lemma store_Ok (m : list word) (p : Z) (v : word) (m' : list word) :
  store m p v = Ok m' -> 0 <= p < len m /\ len m' = len m.
Proof.
  unfold store. destruct (Z.leb_spec 0 p); [|discriminate].
  destruct (Z.ltb_spec p (len m)); [|discriminate].
  cbn [andb]. intros [= <-]. split; [lia|]. unfold len. now rewrite length_insert.
Qed.

Lemma decode_utile_Ok (buf : list word) (off : Z) (out out' : list word) :
  decode_utile buf off out = Ok out' ->
  (0 <= off /\ off + 64 <= len buf) /\ len out' = len out.
Proof.
  unfold decode_utile. intros Hrun.
  assert (Hinner : forall row o o',
            for_loop 8 (fun col out0 =>
              do ix <- tbl utile_decoder row col;
              do v <- load buf (off + ix);
              store out0 (row * 8 + col) v) o = Ok o' ->
            len o' = len o /\
            forall col, 0 <= col < 8 ->
              exists ix, tbl utile_decoder row col = Ok ix /\
                         0 <= off + ix < len buf).
  { intros row o o' Hin.
    destruct (for_loop_Ok (fun _ t => len t = len o) 8 _ o o' ltac:(lia) Hin eq_refl)
      as (Hlen & Hall).
    - intros k t t' _ Ht Hb.
      apply bind_Ok in Hb as (ix & _ & Hb). apply bind_Ok in Hb as (v & _ & Hb).
      apply store_Ok in Hb as (_ & Hb). lia.
    - split; [exact Hlen|]. intros col Hcol.
      destruct (Hall col Hcol) as (t & t' & _ & Hb).
      apply bind_Ok in Hb as (ix & Hix & Hb). apply bind_Ok in Hb as (v & Hv & _).
      exists ix. split; [exact Hix|]. now apply load_Ok in Hv. }
  destruct (for_loop_Ok (fun _ t => len t = len out) 8 _ out out' ltac:(lia) Hrun eq_refl)
    as (Hlen & Hall).
  - intros k t t' _ Ht Hb. apply Hinner in Hb as (Hb & _). lia.
  - split; [|exact Hlen].
    destruct (Hall 0) as (t & t' & _ & Hb0); [lia|].
    destruct (Hall 7) as (u & u' & _ & Hb7); [lia|].
    apply Hinner in Hb0 as (_ & Hb0). apply Hinner in Hb7 as (_ & Hb7).
    destruct (Hb0 0) as (ix0 & Hix0 & H0); [lia|].
    destruct (Hb7 7) as (ix7 & Hix7 & H7); [lia|].
    vm_compute in Hix0. injection Hix0 as <-.
    vm_compute in Hix7. injection Hix7 as <-. lia.
Qed.

(** [decode_utile] reads exactly the 64 words from [&buf[off]] on: it
    succeeds when they lie inside the buffer, and otherwise it accesses the
    buffer out of bounds. *)
Theorem decode_utile_footprint (buf : list word) (off : Z) (out : list word) :
  len out = 64 ->
  (0 <= off /\ off + 64 <= len buf ->
     exists out', decode_utile buf off out = Ok out') /\
  (~ (0 <= off /\ off + 64 <= len buf) ->
     decode_utile buf off out = Err OutOfBounds).
Proof.
  intros Hout. split.
  - intros (Hoff & Hbuf).
    destruct (decode_utile_spec buf off out Hoff Hbuf Hout) as (out' & Hrun & _).
    exists out'. exact Hrun.
  - intros Hbad. destruct (decode_utile buf off out) as [out'|[|]] eqn:Hrun.
    + exfalso. apply Hbad. now apply decode_utile_Ok in Hrun as (Hb & _).
    + exfalso. now apply decode_utile_never in Hrun.
    + reflexivity.
Qed.

Lemma decode_utile_footprint_witness :
  (0 <= 0 /\ 0 + 64 <= len (seqZ 0 64) ->
     exists out', decode_utile (seqZ 0 64) 0 (replicate 64%nat 0) = Ok out') /\
  (~ (0 <= 0 /\ 0 + 64 <= len (seqZ 0 64)) ->
     decode_utile (seqZ 0 64) 0 (replicate 64%nat 0) = Err OutOfBounds).
Proof.
  apply (decode_utile_footprint (seqZ 0 64) 0 (replicate 64%nat 0)). reflexivity.
Defined.

Lemma memcpy_Ok (dst : list word) (d : Z) (src : list word) (s : Z)
    (dst' : list word) :
  memcpy dst d src s 32 = Ok dst' ->
  (0 <= d /\ d + 8 <= len dst) /\ len dst' = len dst.
Proof.
  unfold memcpy. change (32 / 4) with 8. intros Hrun.
  destruct (for_loop_Ok (fun _ t => len t = len dst) 8 _ dst dst' ltac:(lia) Hrun eq_refl)
    as (Hlen & Hall).
  - intros k t t' _ Ht Hb. apply bind_Ok in Hb as (v & _ & Hb).
    apply store_Ok in Hb as (_ & Hb). lia.
  - split; [|exact Hlen].
    destruct (Hall 0) as (t & t' & Ht & Hb0); [lia|].
    destruct (Hall 7) as (u & u' & Hu & Hb7); [lia|].
    apply bind_Ok in Hb0 as (v0 & _ & Hb0). apply store_Ok in Hb0 as (Hb0 & _).
    apply bind_Ok in Hb7 as (v7 & _ & Hb7). apply store_Ok in Hb7 as (Hb7 & _).
    lia.
Qed.

Lemma copy_rows_Ok (utile : list word) (pixrow : Z) (frame : list word)
    (base pr : Z) (frame' : list word) :
  copy_rows utile pixrow frame base = Ok (pr, frame') ->
  (0 <= base + pixrow /\ base + pixrow + 7 * WIDTH + 8 <= len frame) /\
  len frame' = len frame.
Proof.
  unfold copy_rows. intros Hrun.
  destruct (for_loop_Ok (fun r (st : Z * list Z) =>
              fst st = pixrow + r * WIDTH /\ len (snd st) = len frame)
            8 _ (pixrow, frame) (pr, frame') ltac:(lia) Hrun) as ((_ & Hlen) & Hall).
  - simpl. split; [lia|reflexivity].
  - intros r [p f] [p' f'] _ (Hp & Hf) Hb. simpl in Hp, Hf.
    apply bind_Ok in Hb as (g & Hcp & Hb). injection Hb as <- <-.
    apply memcpy_Ok in Hcp as (_ & Hcp). simpl. split; lia.
  - split; [|exact Hlen].
    destruct (Hall 0) as ([p0 f0] & t0 & (Hp0 & Hf0) & Hb0); [lia|].
    destruct (Hall 7) as ([p7 f7] & t7 & (Hp7 & Hf7) & Hb7); [lia|].
    simpl in Hp0, Hf0, Hp7, Hf7.
    apply bind_Ok in Hb0 as (g0 & Hc0 & _). apply memcpy_Ok in Hc0 as (Hc0 & _).
    apply bind_Ok in Hb7 as (g7 & Hc7 & _). apply memcpy_Ok in Hc7 as (Hc7 & _).
    unfold WIDTH in *. lia.
Qed.

Lemma decode_mtile_never (buf : list word) (cur row col : Z)
    (frame : list word) (base : Z) (utile : list word) :
  0 <= col ->
  decode_mtile buf cur row col frame base utile <> Err AssertFailed.
Proof.
  intros Hcol. unfold decode_mtile. apply for_loop_never. intros k [u f] Hk.
  unfold NUM_UTILES_PER_MTILE in Hk.
  apply bind_never; [apply decode_utile_never|]. intros u' _.
  destruct (placement (Z.rem row 2) col k Hcol)
    as (ur & uc & j & _ & _ & _ & _ & _ & _ & _ & _ & Hpl); [lia|].
  rewrite Hpl. cbn [bind].
  apply bind_never; [apply copy_rows_never|]. intros [pr f'] _. discriminate.
Qed.

Lemma decode_mtile_Ok (buf : list word) (cur row col : Z)
    (frame : list word) (base : Z) (utile utile' frame' : list word) :
  0 <= col ->
  decode_mtile buf cur row col frame base utile = Ok (utile', frame') ->
  (0 <= cur /\ cur + 2048 <= len buf) /\
  (0 <= base /\ base + 63 * WIDTH + 32 <= len frame).
Proof.
  intros Hcol. unfold decode_mtile. set (odd := Z.rem row 2). cbv zeta.
  unfold NUM_UTILES_PER_MTILE, NUM_WORDS_PER_UTILE.
  change (4 * 8) with 32. change (8 * 8) with 64. intros Hrun.
  destruct (for_loop_Ok (fun _ (st : list Z * list Z) => len (snd st) = len frame)
              32 _ (utile, frame) (utile', frame') ltac:(lia) Hrun eq_refl)
    as (_ & Hall).
  - intros i [u f] [u' f'] _ Hf Hb. simpl in Hf.
    apply bind_Ok in Hb as (u1 & _ & Hb). apply bind_Ok in Hb as ([ur uc] & _ & Hb).
    apply bind_Ok in Hb as ([pr f1] & Hcr & Hb). injection Hb as _ <-.
    apply copy_rows_Ok in Hcr as (_ & Hcr). simpl. lia.
  - assert (Hiter : forall i, 0 <= i < 32 ->
              exists fr uc, place odd col i = Ok (fr, uc) /\
                (0 <= cur + i * 64 /\ cur + i * 64 + 64 <= len buf) /\
                0 <= base + (fr * 8 * WIDTH + uc * 8) /\
                base + (fr * 8 * WIDTH + uc * 8) + 7 * WIDTH + 8 <= len frame).
    { intros i Hi. destruct (Hall i Hi) as ([u f] & [u' f'] & Hf & Hb).
      simpl in Hf.
      apply bind_Ok in Hb as (u1 & Hdu & Hb).
      apply bind_Ok in Hb as ([fr uc] & Hpl & Hb).
      apply bind_Ok in Hb as ([pr f1] & Hcr & _).
      apply decode_utile_Ok in Hdu as (Hdu & _).
      apply copy_rows_Ok in Hcr as (Hcr & _).
      exists fr, uc. split; [exact Hpl|]. split; [lia|]. lia. }
    destruct (Hiter 0) as (_ & _ & _ & Hlo & _); [lia|].
    destruct (Hiter 31) as (_ & _ & _ & Hhi & _); [lia|].
    destruct (place_complete odd col 0 0 Hcol) as (Hi0 & Hp0); [lia..|].
    destruct (place_complete odd col 7 3 Hcol) as (Hi1 & Hp1); [lia..|].
    destruct (Hiter _ Hi0) as (fr0 & uc0 & Hq0 & _ & Hb0 & _).
    destruct (Hiter _ Hi1) as (fr1 & uc1 & Hq1 & _ & _ & Hb1).
    rewrite Hp0 in Hq0. injection Hq0 as <- <-.
    rewrite Hp1 in Hq1. injection Hq1 as <- <-.
    unfold WIDTH in *. lia.
Qed.

(** [decode_mtile] needs exactly the 2048 input words from [&buf[cur]] on
    and the 64 rows of 32 words from [&frame[base]] on, the last of which
    ends at word [base + 63 * WIDTH + 32]: it succeeds when both lie inside
    their buffers, and otherwise it accesses a buffer out of bounds. *)
Theorem decode_mtile_footprint (buf : list word) (cur row col : Z)
    (frame : list word) (base : Z) (utile : list word) :
  0 <= col -> len utile = 64 ->
  let fits := (0 <= cur /\ cur + 2048 <= len buf) /\
              (0 <= base /\ base + 63 * WIDTH + 32 <= len frame) in
  (fits -> exists utile' frame',
     decode_mtile buf cur row col frame base utile = Ok (utile', frame')) /\
  (~ fits -> decode_mtile buf cur row col frame base utile = Err OutOfBounds).
Proof.
  intros Hcol Hutile fits. split.
  - intros ((Hcur & Hbuf) & (Hbase & Hframe)).
    destruct (decode_mtile_spec buf cur row col frame base utile)
      as (u' & f' & Hrun & _); try assumption.
    exists u', f'. exact Hrun.
  - intros Hbad.
    destruct (decode_mtile buf cur row col frame base utile) as [[u' f']|[|]] eqn:Hrun.
    + exfalso. apply Hbad. now apply (decode_mtile_Ok _ _ _ _ _ _ _ _ _ Hcol Hrun).
    + exfalso. now apply (decode_mtile_never _ _ _ _ _ _ _ Hcol Hrun).
    + reflexivity.
Qed.

Lemma decode_mtile_footprint_witness :
  let fits := (0 <= 0 /\ 0 + 2048 <= len (seqZ 0 2047)) /\
              (0 <= 0 /\ 0 + 63 * WIDTH + 32 <= len (replicate 10%nat 0)) in
  (fits -> exists utile' frame',
     decode_mtile (seqZ 0 2047) 0 0 0 (replicate 10%nat 0) 0 (replicate 64%nat 0)
     = Ok (utile', frame')) /\
  (~ fits ->
     decode_mtile (seqZ 0 2047) 0 0 0 (replicate 10%nat 0) 0 (replicate 64%nat 0)
     = Err OutOfBounds).
Proof.
  apply (decode_mtile_footprint (seqZ 0 2047) 0 0 0 (replicate 10%nat 0) 0
           (replicate 64%nat 0)).
  - lia.
  - reflexivity.
Defined.

(** ** main from end to end *)

Lemma byte_value_range (b : Byte.byte) : 0 <= Z.of_N (Byte.to_N b) < 256.
Proof. pose proof (Byte.to_N_bounded b). lia. Qed.

Lemma byte_of_value (b : Byte.byte) (z : Z) :
  z mod 256 = Z.of_N (Byte.to_N b) -> byte_of z = b.
Proof.
  intros Hz. unfold byte_of. rewrite Hz, N2Z.id, Byte.of_to_N. reflexivity.
Qed.

(** Writing a word read from four bytes gives back the four bytes. *)
Lemma bytes_of_word_of_bytes (b0 b1 b2 b3 : Byte.byte) :
  bytes_of_word (word_of_bytes b0 b1 b2 b3) = [b0; b1; b2; b3].
Proof.
  pose proof (byte_value_range b0). pose proof (byte_value_range b1).
  pose proof (byte_value_range b2). pose proof (byte_value_range b3).
  unfold bytes_of_word, word_of_bytes.
  f_equal; [|f_equal; [|f_equal; [|f_equal]]]; apply byte_of_value; divlia.
Qed.

Lemma words_of_bytes_storable (n : nat) :
  forall data : list Byte.byte,
    (length data <= n)%nat -> Forall storable (words_of_bytes data).
Proof.
  induction n as [|n IH]; intros data Hlen.
  - destruct data; [constructor|simpl in Hlen; lia].
  - destruct data as [|b0 [|b1 [|b2 [|b3 rest]]]]; try constructor.
    + unfold storable. rewrite bytes_of_word_of_bytes. reflexivity.
    + apply IH. simpl in Hlen. lia.
Qed.

Lemma words_of_bytes_of_words (ws : list word) :
  Forall storable ws -> words_of_bytes (bytes_of_words ws) = ws.
Proof.
  induction 1 as [|w ws Hw _ IH]; [reflexivity|].
  unfold bytes_of_words. rewrite fmap_cons. cbn [concat].
  fold (bytes_of_words ws). unfold storable in Hw.
  unfold bytes_of_word in *. cbn [app words_of_bytes] in *.
  injection Hw as Hw. rewrite Hw, IH. reflexivity.
Qed.

Lemma length_bytes_of_words (ws : list word) :
  length (bytes_of_words ws) = (4 * length ws)%nat.
Proof.
  induction ws as [|w ws IH]; [reflexivity|].
  unfold bytes_of_words in *. rewrite fmap_cons. cbn [concat].
  rewrite length_app, IH. simpl. lia.
Qed.

(** When [main] is given two arguments, the input file opens with
    [WIDTH * HEIGHT * 4] bytes, both blocks are allocated, the output file
    opens, and [fread] and [fwrite] transfer in full, it returns 0 and the
    output file has the length of the input and holds its 32-bit words,
    permuted. *)
Theorem main_reorders_words (w : world) (file : list Byte.byte) :
  argc w = 3 ->
  fopen_in w = Some file ->
  ftell_result w = Z.of_nat (length file) ->
  Z.of_nat (length file) = WIDTH * HEIGHT * 4 ->
  malloc_buf w = true ->
  WIDTH * HEIGHT * 4 <= fread_count w ->
  malloc_out w = true ->
  fopen_out w = true ->
  WIDTH * HEIGHT * 4 <= fwrite_count w ->
  exists out,
    main w = Returned 0 (Some out) /\
    length out = length file /\
    Permutation (words_of_bytes out) (words_of_bytes file).
Proof.
  intros Hargc Hopen Htell Hsize Hbuf Hread Hout Hfopen Hwrite.
  assert (Hint : to_int (ftell_result w) = WIDTH * HEIGHT * 4).
  { rewrite Htell, to_int_fits; [exact Hsize|].
    rewrite Hsize. vm_compute. split; [discriminate|reflexivity]. }
  assert (Hblock : fread_into w file (WIDTH * HEIGHT * 4) = file).
  { rewrite <- Hsize. apply fread_into_full. lia. }
  destruct (main_past_assert w file Hargc Hopen Hbuf Hint) as (ws & Hrun & Hmain).
  rewrite Hout, Hfopen in Hmain. cbn [negb] in Hmain. rewrite Hblock in Hrun.
  assert (Hlen : len (words_of_bytes file) = NUM_WORDS)
    by (rewrite <- Hblock; apply len_buf_at_loop).
  destruct (detile_permutation _ Hlen) as (ws' & Hrun' & Hperm).
  fold NUM_WORDS in Hrun. rewrite Hrun in Hrun'. injection Hrun' as <-.
  assert (Hbytes : length (bytes_of_words ws) = length file).
  { rewrite length_bytes_of_words. apply Permutation_length in Hperm.
    unfold len in Hlen. revert Hsize. fold NUM_WORDS. lia. }
  assert (Hall : take (Z.to_nat (fwrite_count w)) (bytes_of_words ws)
                 = bytes_of_words ws) by (apply take_ge; lia).
  exists (bytes_of_words ws). split; [|split].
  - rewrite Hmain, Hall. reflexivity.
  - exact Hbytes.
  - rewrite words_of_bytes_of_words; [exact Hperm|].
    eapply Forall_Permutation; [reflexivity|exact Hperm|].
    apply (words_of_bytes_storable (length file)). lia.
Qed.

(** Whatever the library answers, [main] never accesses a buffer out of
    bounds, and the size assertion is the only one that can fail: the run
    is aborted exactly when [main] has two arguments, the input file opens,
    the input buffer is allocated and the [int] [size] is not
    [WIDTH * HEIGHT * 4]. *)
Theorem main_fails_only_on_size (w : world) :
  main w <> Undefined /\
  (main w = Aborted <->
   argc w = 3 /\ (exists file, fopen_in w = Some file) /\
   malloc_buf w = true /\ to_int (ftell_result w) <> WIDTH * HEIGHT * 4).
Proof.
  destruct (Z.eq_dec (argc w) 3) as [Hargc|Hargc].
  2: { assert (Hrun : main w = Returned EINVAL None).
       { unfold main. now destruct (Z.eqb_spec (argc w) 3). }
       rewrite Hrun. split; [discriminate|]. split; [discriminate|tauto]. }
  destruct (fopen_in w) as [file|] eqn:Hopen.
  2: { assert (Hrun : main w = Returned (errno_in w) None).
       { unfold main. now rewrite Hargc, Hopen. }
       rewrite Hrun. split; [discriminate|]. split; [discriminate|].
       intros (_ & (file & Hfile) & _). discriminate. }
  destruct (malloc_buf w) eqn:Hbuf.
  2: { assert (Hrun : main w = Returned ENOMEM None).
       { unfold main. now rewrite Hargc, Hopen, Hbuf. }
       rewrite Hrun. split; [discriminate|]. split; [discriminate|].
       intros (_ & _ & Hfalse & _). discriminate. }
  destruct (Z.eq_dec (to_int (ftell_result w)) (WIDTH * HEIGHT * 4)) as [E|E].
  - destruct (main_past_assert w file Hargc Hopen Hbuf E) as (out & _ & Hrun).
    rewrite Hrun. destruct (malloc_out w), (fopen_out w); cbn [negb];
      (split; [discriminate|]); (split; [discriminate|tauto]).
  - rewrite (main_to_assert w file Hargc Hopen Hbuf E).
    split; [discriminate|]. split; [|reflexivity].
    intros _. split; [exact Hargc|]. split; [now exists file|]. now split.
Qed.

Lemma main_reorders_words_witness :
  exists out,
    main (plain_run (replicate (Z.to_nat (WIDTH * HEIGHT * 4)) Byte.x2a))
    = Returned 0 (Some out) /\
    length out = length (replicate (Z.to_nat (WIDTH * HEIGHT * 4)) Byte.x2a) /\
    Permutation (words_of_bytes out)
      (words_of_bytes (replicate (Z.to_nat (WIDTH * HEIGHT * 4)) Byte.x2a)).
Proof.
  assert (Hlen : Z.of_nat (length (replicate (Z.to_nat (WIDTH * HEIGHT * 4)) Byte.x2a))
                 = WIDTH * HEIGHT * 4).
  { rewrite length_replicate. apply Z2Nat.id. unfold WIDTH, HEIGHT. lia. }
  apply (main_reorders_words
           (plain_run (replicate (Z.to_nat (WIDTH * HEIGHT * 4)) Byte.x2a))
           (replicate (Z.to_nat (WIDTH * HEIGHT * 4)) Byte.x2a)).
  - reflexivity.
  - reflexivity.
  - reflexivity.
  - exact Hlen.
  - reflexivity.
  - cbn [fread_count plain_run]. rewrite Hlen. apply Z.le_refl.
  - reflexivity.
  - reflexivity.
  - cbn [fwrite_count plain_run]. rewrite Hlen. apply Z.le_refl.
Defined.



(** ** Tiling, then detiling *)

(** The round trip in the other direction: the inverse transform builds,
    from any raster frame, a tiled buffer that the transform decodes back
    to that frame. *)
Theorem detile_inverse_transform (raster : list word) :
  len raster = WIDTH * HEIGHT ->
  len (inverse_transform raster) = WIDTH * HEIGHT /\
  detile (inverse_transform raster) (WIDTH * HEIGHT * 4) = Ok raster.
Proof.
  fold NUM_WORDS. intros Hlen.
  assert (Hinv : len (inverse_transform raster) = NUM_WORDS).
  { unfold inverse_transform, len. rewrite length_fmap, length_seqZ.
    apply Z2Nat.id, NUM_WORDS_pos. }
  split; [exact Hinv|]. rewrite (detile_gather _ Hinv). apply (f_equal Ok).
  transitivity ((fun q => default 0 (get raster q)) <$> seqZ 0 NUM_WORDS);
    [|rewrite <- Hlen; symmetry; apply buffer_tabulate].
  apply get_ext. intros p. rewrite !get_tabulate.
  destruct ((0 <=? p) && (p <? NUM_WORDS)) eqn:Hp; [|reflexivity].
  apply andb_prop in Hp as [H0 H1]. apply Z.leb_le in H0. apply Z.ltb_lt in H1.
  destruct (frame_dst_src p) as (Hs & Hdst); [lia|].
  rewrite get_inverse_transform.
  destruct (Z.leb_spec 0 (frame_src p)); [|lia].
  destruct (Z.ltb_spec (frame_src p) NUM_WORDS); [|lia].
  cbn [andb default]. rewrite Hdst. reflexivity.
Qed.

Lemma detile_inverse_transform_witness :
  len (inverse_transform (seqZ 3 (WIDTH * HEIGHT))) = WIDTH * HEIGHT /\
  detile (inverse_transform (seqZ 3 (WIDTH * HEIGHT))) (WIDTH * HEIGHT * 4)
  = Ok (seqZ 3 (WIDTH * HEIGHT)).
Proof.
  apply (detile_inverse_transform (seqZ 3 (WIDTH * HEIGHT))).
  unfold len. rewrite length_seqZ. apply Z2Nat.id. apply NUM_WORDS_pos.
Defined.
